(** * yt_dlp/plugins.py: plugin discovery and loading

    A shallow embedding of [yt_dlp/plugins.py] and of the parts of the
    Python runtime it talks to (pathlib paths, the file system, zip
    archives, the import machinery), followed by the properties of the
    plugin subsystem that are established on it.

    Modelling conventions:
    - Python [str] is [string]; a [dict] with string keys is a [gmap
      string _]; a [set] is a [gset].
    - a [pathlib.PurePosixPath] is represented by its [parts] tuple.
    - code that can raise runs in a state-and-exception monad [M]; the
      state is returned in both outcomes, as a Python exception leaves
      the mutations done so far in place.
    - the operating system and the import machinery are inputs: records
      of oracles ([filesystem], [environ], [importer]). *)

From Stdlib Require Import Ascii String.
From stdpp Require Import gmap strings list fin_maps.

Open Scope string_scope.
Set Warnings "-clear-no-such-hyp".

(** ** Python strings *)

Module Str.

(** [s.startswith(p)] *)
Definition startswith (s p : string) : bool := String.prefix p s.

(** [s.endswith(suf)] *)
Fixpoint endswith (s suf : string) : bool :=
  if String.eqb s suf then true
  else match s with
       | EmptyString => false
       | String _ s' => endswith s' suf
       end.

(** [s.split(sep)] for a one-character separator. *)
Fixpoint split (sep : ascii) (s : string) : list string :=
  match s with
  | EmptyString => [""]
  | String c s' =>
      if Ascii.eqb c sep then "" :: split sep s'
      else match split sep s' with
           | w :: ws => String c w :: ws
           | [] => [String c ""]
           end
  end.

(** [sep.join(l)] *)
Fixpoint join (sep : string) (l : list string) : string :=
  match l with
  | [] => ""
  | [x] => x
  | x :: rest => x ++ sep ++ join sep rest
  end.

(** [s.rfind('.')] *)
Fixpoint rfind_dot (s : string) : option nat :=
  match s with
  | EmptyString => None
  | String c s' =>
      match rfind_dot s' with
      | Some i => Some (S i)
      | None => if Ascii.eqb c "."%char then Some 0 else None
      end
  end.

(** [repr(s)] of a string without quotes or escapes in it. *)
Definition repr (s : string) : string := "'" ++ s ++ "'".

End Str.

(** [itertools.accumulate(l, f)] *)
Fixpoint accumulate_from {A} (f : A → A → A) (acc : A) (l : list A) : list A :=
  match l with
  | [] => []
  | x :: r => let a := f acc x in a :: accumulate_from f a r
  end.

Definition accumulate {A} (f : A → A → A) (l : list A) : list A :=
  match l with
  | [] => []
  | x :: r => x :: accumulate_from f x r
  end.

(** [list(dict.fromkeys(l))]: duplicates dropped, first occurrences kept
    in their order. *)
Fixpoint dict_fromkeys {A} `{EqDecision A} (l : list A) : list A :=
  match l with
  | [] => []
  | x :: r => x :: filter (λ y, y ≠ x) (dict_fromkeys r)
  end.

(** ** pathlib *)

(** A pure POSIX path, as its [parts]: [Path('/usr/lib')] is
    [["/"; "usr"; "lib"]], [Path('a/b')] is [["a"; "b"]] and [Path('.')]
    is [[]]. *)
Abbreviation Path := (list string).

Module Pathlib.

Definition root_of (s : string) : Path :=
  if Str.startswith s "///" then ["/"]
  else if Str.startswith s "//" then ["//"]
  else if Str.startswith s "/" then ["/"]
  else [].

Definition is_component (c : string) : bool :=
  negb (String.eqb c "") && negb (String.eqb c ".").

(** [Path(s)] *)
Definition of_string (s : string) : Path :=
  root_of s ++ filter (λ c, is_component c = true) (Str.split "/"%char s).

Definition is_root (c : string) : bool := Str.startswith c "/".

Definition is_absolute (p : Path) : bool :=
  match p with
  | r :: _ => is_root r
  | [] => false
  end.

(** [p / q] *)
Definition joinpath (p q : Path) : Path :=
  if is_absolute q then q else p ++ q.

(** [Path] applied to several segments. *)
Definition of_segments (segments : list string) : Path :=
  foldl joinpath [] (of_string <$> segments).

(** [p.name] *)
Definition name (p : Path) : string :=
  match p with
  | [r] => if is_root r then "" else r
  | _ => default "" (last p)
  end.

(** [PurePath.suffix] of a final component. *)
Definition suffix_of (nm : string) : string :=
  match Str.rfind_dot nm with
  | Some i =>
      if Nat.ltb 0 i && Nat.ltb i (String.length nm - 1)
      then substring i (String.length nm - i) nm
      else ""
  | None => ""
  end.

(** [p.with_suffix(suf)]. pathlib raises [ValueError] on a path with an
    empty name; the one call site is guarded by [path.name and ...], and
    the model returns such a path as it is. *)
Definition with_suffix (p : Path) (suf : string) : Path :=
  let nm := name p in
  if String.eqb nm "" then p
  else
    let stem := substring 0 (String.length nm - String.length (suffix_of nm)) nm in
    take (length p - 1) p ++ [stem ++ suf].

(** [p.parents]: the proper ancestors, nearest first; an absolute path
    stops at its root, a relative one at [Path('.')]. *)
Definition parents (p : Path) : list Path :=
  let lo := if is_absolute p then 1 else 0 in
  (λ n, take n p) <$> reverse (seq lo (length p - lo)).

(** [str(p)] *)
Definition str (p : Path) : string :=
  match p with
  | [] => "."
  | r :: rest => if is_root r then r ++ Str.join "/" rest else Str.join "/" p
  end.

End Pathlib.

(** ** Exceptions and the state-and-exception monad *)

(** The exception classes that matter to the handlers of this file.
    [Exception_ c] is any other class derived from [Exception],
    [BaseException_ c] any other class that is not (such as
    [GeneratorExit]). *)
Inductive exn :=
  | FileNotFoundError
  | IsADirectoryError
  | ModuleNotFoundError
  | ImportError
  | BadZipFile
  | KeyError
  | Exception_ (c : string)
  | SystemExit
  | KeyboardInterrupt
  | BaseException_ (c : string).

#[global] Instance exn_eq_dec : EqDecision exn.
Proof. solve_decision. Defined.

(** [isinstance(e, Exception)] *)
Definition is_Exception (e : exn) : bool :=
  match e with
  | SystemExit | KeyboardInterrupt | BaseException_ _ => false
  | _ => true
  end.

(** [isinstance(e, FileNotFoundError)] *)
Definition is_FileNotFoundError (e : exn) : bool :=
  match e with FileNotFoundError => true | _ => false end.

(** [isinstance(e, ModuleNotFoundError)] *)
Definition is_ModuleNotFoundError (e : exn) : bool :=
  match e with ModuleNotFoundError => true | _ => false end.

Inductive result (A : Type) :=
  | Ok (a : A)
  | Raise (e : exn).
Arguments Ok {A} a.
Arguments Raise {A} e.

Definition M (S A : Type) : Type := S → result A * S.

Definition ret {S A} (a : A) : M S A := λ s, (Ok a, s).

Definition bind {S A B} (m : M S A) (k : A → M S B) : M S B :=
  λ s, match m s with
       | (Ok a, s') => k a s'
       | (Raise e, s') => (Raise e, s')
       end.

Definition raise {S A} (e : exn) : M S A := λ s, (Raise e, s).
Definition gets {S A} (f : S → A) : M S A := λ s, (Ok (f s), s).
Definition modify {S} (f : S → S) : M S unit := λ s, (Ok tt, f s).

(** The outcome of a call into the environment, replayed in the monad. *)
Definition lift {S A} (r : result A) : M S A := λ s, (r, s).

(** [with contextlib.suppress(E): body]; [dflt] stands for the values of
    the variables the body would have assigned. *)
Definition suppress {S A} (E : exn → bool) (body : M S A) (dflt : A) : M S A :=
  λ s, match body s with
       | (Raise e, s') => if E e then (Ok dflt, s') else (Raise e, s')
       | r => r
       end.

(** [try: body / except E: handler(e)] *)
Definition try_except {S A} (body : M S A) (E : exn → bool) (handler : exn → M S A) : M S A :=
  λ s, match body s with
       | (Raise e, s') => if E e then handler e s' else (Raise e, s')
       | r => r
       end.

Notation "'let!' x ':=' m 'in' k" := (bind m (λ x, k))
  (at level 10, x pattern, m at level 100, k at level 200).
Notation "m '>>' k" := (bind m (λ _, k))
  (at level 100, k at level 200, right associativity).


(** ** The environment *)

(** What the file system answers. [zip_namelist p] is the outcome of
    [ZipFile(p).namelist()]: the entry names, or the exception raised on
    the way ([FileNotFoundError], [IsADirectoryError], [BadZipFile], ...). *)
Record filesystem := {
  is_dir : Path → bool;
  is_file : Path → bool;
  iterdir : Path → list Path;
  zip_namelist : Path → result (list string);
}.

(** The configuration the roots are computed from: the values of
    [get_user_config_dirs('yt-dlp')], [get_system_config_dirs('yt-dlp')],
    [get_executable_path()], [compat_expanduser], [os.getenv] of
    [XDG_CONFIG_HOME], and [sys.path]. *)
Record environ := {
  get_user_config_dirs : list string;
  get_system_config_dirs : list string;
  get_executable_path : string;
  compat_expanduser : string → string;
  XDG_CONFIG_HOME : option string;
  sys_path : list string;
}.

Definition PACKAGE_NAME : string := "yt_dlp_plugins".
Definition COMPAT_PACKAGE_NAME : string := "ytdlp_plugins".

(** ** Python objects *)

(** A class object: its identity, [__name__] and [__module__]. *)
Record class_obj := {
  cls_id : N;
  __name__ : string;
  __module__ : string;
}.

(** A value bound to a top-level symbol: a class, or anything else
    (a function, a module, a constant), for which [inspect.isclass] is
    false. *)
Inductive pyobj :=
  | PyClass (c : class_obj)
  | PyOther (descr : string).

#[global] Instance class_obj_eq_dec : EqDecision class_obj.
Proof. solve_decision. Defined.
#[global] Instance pyobj_eq_dec : EqDecision pyobj.
Proof. solve_decision. Defined.

(** A module object: its namespace, and its [__all__] when it declares
    one (a list of strings). *)
Record py_module := {
  mod_dict : gmap string pyobj;
  mod___all__ : option (list string);
}.

(** ** PluginLoader *)

Inductive Loader := PluginLoader | SourceFileLoader.

(** [PluginLoader.exec_module]: returns [None], touches nothing. *)
Definition exec_module {S} (self : Loader) (module : py_module) : M S unit := ret tt.

(** ** PluginFinder *)

Record PluginFinder := {
  packages : gset string;
  _zip_content_cache : gmap Path (list Path);
}.

(** The state a method of a finder runs in: the finder object, and the
    log of every [ZipFile(archive)] opened, in order. *)
Record fstate := {
  self : PluginFinder;
  zip_opened : list Path;
}.

Definition set_cache (c : gmap Path (list Path)) (st : fstate) : fstate :=
  {| self := {| packages := packages (self st); _zip_content_cache := c |};
     zip_opened := zip_opened st |}.

(** [PluginFinder.partition] *)
Definition partition (name : string) : list string :=
  accumulate (λ a b, Str.join "." [a; b]) (Str.split "."%char name).

(** [PluginFinder.__init__] *)
Definition PluginFinder_init (pkgs : list string) : PluginFinder :=
  {| packages := foldl (λ acc name, acc ∪ list_to_set (partition name)) ∅ pkgs;
     _zip_content_cache := ∅ |}.

Section Finder.
Variable fs : filesystem.
Variable env : environ.

(** [ZipFile(archive).namelist()]: the archive is opened, which the log
    records, and its listing or the exception comes back. *)
Definition ZipFile_namelist (archive : Path) : M fstate (list string) :=
  λ st, (zip_namelist fs archive,
         {| self := self st; zip_opened := zip_opened st ++ [archive] |}).

(** [PluginFinder.zip_has_dir] *)
Definition zip_has_dir (archive path : Path) : M fstate bool :=
  let! cache := gets (λ st, _zip_content_cache (self st)) in
  (if decide (archive ∉ dom cache) then
     let! names := ZipFile_namelist archive in
     modify (λ st, set_cache
               (<[archive := Pathlib.of_string <$> names]> (_zip_content_cache (self st))) st)
   else ret tt) >>
  let! cache := gets (λ st, _zip_content_cache (self st)) in
  match cache !! archive with
  | Some files => ret (existsb (λ file, bool_decide (path ∈ Pathlib.parents file)) files)
  | None => raise KeyError
  end.

(** [_get_package_paths], the generator local to [search_locations]. *)
Definition _get_package_paths (root_paths : list string) (containing_folder : string)
  : list Path :=
  mbind (M := list) (λ config_dir : Path,
      let plugin_dir := Pathlib.joinpath config_dir (Pathlib.of_string containing_folder) in
      if negb (is_dir fs plugin_dir) then []
      else iterdir fs plugin_dir)
    (Pathlib.of_string <$> root_paths).

(** The roots of the [yt-dlp-plugins] folders; the last one is
    [os.getenv('XDG_CONFIG_HOME') or compat_expanduser('~/.config')]. *)
Definition legacy_roots : list string :=
  [ get_executable_path env;
    compat_expanduser env "~";
    "/etc";
    match XDG_CONFIG_HOME env with
    | Some v => if String.eqb v "" then compat_expanduser env "~/.config" else v
    | None => compat_expanduser env "~/.config"
    end ].

(** The [candidate_locations] list of [search_locations], once its three
    [extend] calls are done. *)
Definition candidate_locations : list Path :=
  (_get_package_paths (get_user_config_dirs env ++ get_system_config_dirs env) "plugins"
   ++ _get_package_paths legacy_roots "yt-dlp-plugins"
   ++ (Pathlib.of_string <$> sys_path env))%list.

Definition archive_suffixes : list string := [".zip"; ".egg"; ".whl"].

(** One iteration of the [for path in dict.fromkeys(...)] loop. *)
Definition search_step (parts : Path) (locations : gset string) (path : Path)
  : M fstate (gset string) :=
  let candidate := Pathlib.joinpath path parts in
  if is_dir fs candidate then
    ret (locations ∪ {[Pathlib.str candidate]})
  else if negb (String.eqb (Pathlib.name path) "")
          && existsb (λ suffix, is_file fs (Pathlib.with_suffix path suffix)) archive_suffixes
  then
    suppress is_FileNotFoundError
      (let! found := zip_has_dir path parts in
       if found then ret (locations ∪ {[Pathlib.str candidate]}) else ret locations)
      locations
  else ret locations.

Fixpoint search_loop (parts : Path) (locations : gset string) (paths : list Path)
  : M fstate (gset string) :=
  match paths with
  | [] => ret locations
  | path :: rest =>
      let! locations := search_step parts locations path in
      search_loop parts locations rest
  end.

(** [PluginFinder.search_locations] *)
Definition search_locations (fullname : string) : M fstate (gset string) :=
  let parts := Pathlib.of_segments (Str.split "."%char fullname) in
  search_loop parts ∅ (dict_fromkeys candidate_locations).

(** [importlib.machinery.ModuleSpec] *)
Record ModuleSpec := {
  spec_name : string;
  spec_loader : Loader;
  submodule_search_locations : option (gset string);
}.

(** [PluginFinder.find_spec]; [None] is Python's [None]. *)
Definition find_spec (fullname : string) : M fstate (option ModuleSpec) :=
  let! pkgs := gets (λ st, packages (self st)) in
  if decide (fullname ∉ pkgs) then ret None
  else
    let! locations := search_locations fullname in
    if decide (locations = ∅) then ret None
    else
      let spec := {| spec_name := fullname; spec_loader := PluginLoader;
                     submodule_search_locations := Some ∅ |} in
      let spec := {| spec_name := spec_name spec; spec_loader := spec_loader spec;
                     submodule_search_locations := Some locations |} in
      ret (Some spec).

End Finder.

(** [PluginFinder.invalidate_caches]: the cache is emptied and every
    watched package is dropped from [sys.modules] (here the set of the
    names it has an entry for). *)
Definition invalidate_caches (f : PluginFinder) (sys_modules : gset string)
  : PluginFinder * gset string :=
  ({| packages := packages f; _zip_content_cache := ∅ |},
   sys_modules ∖ packages f).

(** ** initialize *)

(** An entry of [sys.meta_path]. *)
Inductive meta_finder :=
  | PluginFinder_object (f : PluginFinder)
  | other_finder (descr : string).

(** The module-level state of the interpreter that [initialize] reads
    and writes. *)
Record interp := {
  _INITIALIZED : bool;
  sys_meta_path : list meta_finder;
}.

(** [initialize] *)
Definition initialize (st : interp) : interp :=
  if _INITIALIZED st then st
  else
    {| _INITIALIZED := true;
       sys_meta_path :=
         PluginFinder_object
           (PluginFinder_init [PACKAGE_NAME ++ ".extractor"; PACKAGE_NAME ++ ".postprocessor"])
         :: sys_meta_path st |}.

(** ** load_plugins *)

(** What the import machinery answers. A submodule listed by
    [pkgutil.iter_modules] comes with the outcome of each call the loop
    makes on it. *)
Record submodule := {
  sm_zipimporter : bool;               (* isinstance(finder, zipimport.zipimporter) *)
  sm_name : string;                    (* module_name *)
  sm_load_module : result py_module;   (* finder.load_module(module_name) *)
  sm_module_from_spec : result unit;   (* finder.find_spec, then module_from_spec *)
  sm_exec_module : result py_module;   (* spec.loader.exec_module(module): the module, executed *)
}.

Record importer := {
  version_lt_3_10 : bool;                          (* sys.version_info < (3, 10) *)
  import_module : string → result (list string);   (* importlib.import_module(fullname).__path__ *)
  pkgutil_iter_modules : list string → string → list submodule;
  exec_file_location : string → Path → result py_module;
                         (* the module of spec_from_file_location(name, file), executed *)
  format_exc : exn → string;                       (* traceback.format_exc(limit=-1) *)
}.

(** The store of [dict] objects (a reference is an index in it), the
    names this file has assigned in [sys.modules], and what [write_string]
    has printed. *)
Record lstate := {
  heap : list (gmap string pyobj);
  sys_modules : gset string;
  stderr : list string;
}.

(** [{}] *)
Definition new_dict : M lstate nat :=
  λ st, (Ok (length (heap st)),
         {| heap := heap st ++ [∅]; sys_modules := sys_modules st; stderr := stderr st |}).

Definition deref (r : nat) : M lstate (gmap string pyobj) :=
  gets (λ st, default ∅ (heap st !! r)).

Definition assign (r : nat) (d : gmap string pyobj) : M lstate unit :=
  modify (λ st, {| heap := <[r := d]> (heap st);
                   sys_modules := sys_modules st; stderr := stderr st |}).

(** [sys.modules[name] = module] *)
Definition set_sys_modules (name : string) : M lstate unit :=
  modify (λ st, {| heap := heap st;
                   sys_modules := sys_modules st ∪ {[name]}; stderr := stderr st |}).

(** [write_string] *)
Definition write_string (msg : string) : M lstate unit :=
  modify (λ st, {| heap := heap st;
                   sys_modules := sys_modules st; stderr := stderr st ++ [msg] |}).

Definition newline : string := String (ascii_of_nat 10) EmptyString.

(** [\w] on ASCII. *)
Definition is_word_char (c : ascii) : bool :=
  let n := nat_of_ascii c in
  (Nat.leb 48 n && Nat.leb n 57) || (Nat.leb 65 n && Nat.leb n 90)
  || (Nat.leb 97 n && Nat.leb n 122) || Nat.eqb n 95.

Fixpoint all_word (s : string) : bool :=
  match s with
  | EmptyString => true
  | String c s' => is_word_char c && all_word s'
  end.

(** The dot-separated segments of a name that [^(\w+\.)*_] matches: some
    segment starts with an underscore and every one before it is a
    non-empty word. *)
Fixpoint match_private (segments : list string) : bool :=
  match segments with
  | [] => false
  | seg :: rest =>
      Str.startswith seg "_"
      || (negb (String.eqb seg "") && all_word seg && match_private rest)
  end.

(** [re.match(r'^(\w+\.)*_', module_name)] is not [None]. *)
Definition re_match_private (module_name : string) : bool :=
  match_private (Str.split "."%char module_name).

Section Load.
Variable env : environ.
Variable imp : importer.

(** [iter_modules] *)
Definition iter_modules (subpackage : string) : M lstate (list submodule) :=
  let fullname := PACKAGE_NAME ++ "." ++ subpackage in
  suppress is_ModuleNotFoundError
    (let! pkg_path := lift (import_module imp fullname) in
     ret (pkgutil_iter_modules imp pkg_path (fullname ++ ".")))
    [].

Variable suffix : string.

(** [check_predicate], with the [package_name] and [module] that
    [gen_predicate] closes over. *)
Definition check_predicate (package_name : string) (module : py_module) (obj : pyobj) : bool :=
  match obj with
  | PyClass c =>
      Str.endswith (__name__ c) suffix
      && Str.startswith (__module__ c) package_name
      && negb (Str.startswith (__name__ c) "_")
      && bool_decide (__name__ c ∈ default [__name__ c] (mod___all__ module))
  | PyOther _ => false
  end.

(** [dict(inspect.getmembers(module, gen_predicate(module_name, module)))] *)
Definition module_classes (module : py_module) (module_name : string) : gmap string pyobj :=
  filter (λ kv, check_predicate module_name module kv.2 = true) (mod_dict module).

(** The value [classes] has after the [update] of [load_module]. *)
Definition merged (classes namespace mc : gmap string pyobj) : gmap string pyobj :=
  let name_collisions := (dom classes ∪ dom namespace) ∩ dom mc in
  filter (λ kv, kv.1 ∉ name_collisions) mc ∪ classes.

(** [load_module], with the [classes] and [namespace] dicts it closes
    over. *)
Definition load_module (classes namespace : nat) (module : py_module) (module_name : string)
  : M lstate unit :=
  let! cl := deref classes in
  let! ns := deref namespace in
  assign classes (merged cl ns (module_classes module module_name)).

(** The body of the [try]. *)
Definition import_submodule (sm : submodule) : M lstate py_module :=
  if version_lt_3_10 imp && sm_zipimporter sm then
    lift (sm_load_module sm)
  else
    lift (sm_module_from_spec sm) >>
    set_sys_modules (sm_name sm) >>
    lift (sm_exec_module sm).

Definition diagnostic (module_name : string) (e : exn) : string :=
  "Error while importing module " ++ Str.repr module_name ++ newline ++ format_exc imp e.

(** One iteration of the [for finder, module_name, _ in iter_modules(name)]
    loop; [None] stands for the [continue] of the handler. *)
Definition scan_step (classes namespace : nat) (sm : submodule) : M lstate unit :=
  if re_match_private (sm_name sm) then ret tt
  else
    let! imported :=
      try_except (let! module := import_submodule sm in ret (Some module))
        is_Exception
        (λ e, write_string (diagnostic (sm_name sm) e) >> ret None) in
    match imported with
    | None => ret tt
    | Some module => load_module classes namespace module (sm_name sm)
    end.

Fixpoint scan (classes namespace : nat) (mods : list submodule) : M lstate unit :=
  match mods with
  | [] => ret tt
  | sm :: rest => scan_step classes namespace sm >> scan classes namespace rest
  end.

(** The legacy package, [ytdlp_plugins/<name>/__init__.py] next to the
    executable. *)
Definition compat (name : string) (classes namespace : nat) : M lstate unit :=
  suppress is_FileNotFoundError
    (let file := Pathlib.of_segments
                   [get_executable_path env; COMPAT_PACKAGE_NAME; name; "__init__.py"] in
     set_sys_modules name >>
     let! plugins := lift (exec_file_location imp name file) in
     load_module classes namespace plugins name)
    tt.

(** [load_plugins] from its loop on, once [classes] and [namespace] are
    bound; [namespace.update(classes)] lets the entries of [classes]
    override. *)
Definition load_plugins_from (name : string) (classes namespace : nat) : M lstate nat :=
  let! mods := iter_modules name in
  scan classes namespace mods >>
  compat name classes namespace >>
  let! cl := deref classes in
  let! ns := deref namespace in
  assign namespace (cl ∪ ns) >>
  ret classes.

(** [load_plugins]; [namespace] is the caller's dict, or [None].
    [namespace or {}] is a new dict when the caller's is [None] or
    empty. *)
Definition load_plugins (name : string) (namespace : option nat) : M lstate nat :=
  let! classes := new_dict in
  let! namespace :=
    match namespace with
    | None => new_dict
    | Some r => let! d := deref r in if decide (d = ∅) then new_dict else ret r
    end in
  load_plugins_from name classes namespace.

End Load.

(** * Vocabulary of the statements *)

(** The answer [zip_has_dir] computes from a list of entry paths. *)
Definition has_directory (files : list Path) (path : Path) : bool :=
  existsb (λ file, bool_decide (path ∈ Pathlib.parents file)) files.

Definition cache_of (st : fstate) : gmap Path (list Path) := _zip_content_cache (self st).

(** A run of queries on one archive, each under the file system of its
    time. *)
Fixpoint queries (archive : Path) (qs : list (filesystem * Path)) : M fstate (list bool) :=
  match qs with
  | [] => ret []
  | (fs, path) :: rest =>
      let! b := zip_has_dir fs archive path in
      let! bs := queries archive rest in
      ret (b :: bs)
  end.

(** [invalidate_caches], on the state of a finder. *)
Definition invalidated (sys_modules : gset string) (st : fstate) : fstate :=
  {| self := (invalidate_caches (self st) sys_modules).1; zip_opened := zip_opened st |}.

(** ** A concrete installation

    One user, whose configuration directory holds a [plugins] folder
    with the single entry [myplugins.zip]; nothing else exists. *)

Definition plugins_dir : Path := ["/"; "home"; "u"; ".config"; "yt-dlp"; "plugins"].
Definition myplugins_zip : Path := ["/"; "home"; "u"; ".config"; "yt-dlp"; "plugins"; "myplugins.zip"].
(** A module-search-path entry with no file behind it, next to which
    [myplugins.zip] lies. *)
Definition myplugins : Path := ["/"; "home"; "u"; ".config"; "yt-dlp"; "plugins"; "myplugins"].

(** The file system of that installation, [myplugins.zip] holding the
    entries [names]. *)
Definition zip_fs (names : list string) : filesystem := {|
  is_dir := λ p, bool_decide (p = plugins_dir);
  is_file := λ p, bool_decide (p = myplugins_zip);
  iterdir := λ p, if bool_decide (p = plugins_dir) then [myplugins_zip] else [];
  zip_namelist := λ p,
    if bool_decide (p = myplugins_zip) then Ok names
    else if bool_decide (p = plugins_dir) then Raise IsADirectoryError
    else Raise FileNotFoundError;
|}.

(** A file system with nothing in it. *)
Definition empty_fs : filesystem := {|
  is_dir := λ _, false;
  is_file := λ _, false;
  iterdir := λ _, [];
  zip_namelist := λ _, Raise FileNotFoundError;
|}.

Definition expanduser_u (s : string) : string :=
  match s with
  | String "~"%char rest => "/home/u" ++ rest
  | _ => s
  end.

Definition home_env : environ := {|
  get_user_config_dirs := ["/home/u/.config/yt-dlp"];
  get_system_config_dirs := ["/etc/yt-dlp"];
  get_executable_path := "/usr/bin";
  compat_expanduser := expanduser_u;
  XDG_CONFIG_HOME := None;
  sys_path := ["/usr/lib/python3/site-packages"];
|}.

(** The finder [initialize] installs, before any query. *)
Definition fresh_finder : fstate := {|
  self := PluginFinder_init ["yt_dlp_plugins.extractor"; "yt_dlp_plugins.postprocessor"];
  zip_opened := [];
|}.

(** ** The archive layout in the words of the specification *)

(** The set [search_locations] returns; empty when it raises. *)
Definition resolved (r : result (gset string) * fstate) : gset string :=
  match r.1 with
  | Ok locations => locations
  | Raise _ => ∅
  end.

(** "A [.zip]/[.egg]/[.whl] candidate backs the namespace of a category
    exactly when [<category>] is an ancestor directory of some entry". *)
Definition backs_by_category (fs : filesystem) (env : environ) (st : fstate)
    (category : string) (archive : Path) (names : list string) : Prop :=
  let fullname := PACKAGE_NAME ++ "." ++ category in
  let parts := Pathlib.of_segments (Str.split "."%char fullname) in
  Pathlib.str (Pathlib.joinpath archive parts) ∈ resolved (search_locations fs env fullname st)
  ↔ ∃ entry, entry ∈ names ∧ [category] ∈ Pathlib.parents (Pathlib.of_string entry).

(** ** Root enumeration in the words of the specification *)

(** "Every configured root, joined with its [plugins] folder, is in the
    enumerated sequence whether or not the directory exists". *)
Definition enumerated_unfiltered (fs : filesystem) (env : environ) : Prop :=
  ∀ root, root ∈ (get_user_config_dirs env ++ get_system_config_dirs env)%list →
    Pathlib.joinpath (Pathlib.of_string root) ["plugins"] ∈ candidate_locations fs env.

(** ** The scan order of [load_plugins] *)

(** The dict a reference denotes. *)
Definition dict_at (st : lstate) (r : nat) : gmap string pyobj := default ∅ (heap st !! r).

(** What the [try] block of the loop ends in for a submodule. *)
Definition import_outcome (imp : importer) (sm : submodule) : result py_module :=
  if version_lt_3_10 imp && sm_zipimporter sm then sm_load_module sm
  else match sm_module_from_spec sm with
       | Ok _ => sm_exec_module sm
       | Raise e => Raise e
       end.

(** The classes a listed submodule offers to [load_module]; [None] when
    it is skipped or its import raises. *)
Definition offered (imp : importer) (suffix : string) (sm : submodule)
  : option (gmap string pyobj) :=
  if re_match_private (sm_name sm) then None
  else match import_outcome imp sm with
       | Ok module => Some (module_classes suffix module (sm_name sm))
       | Raise _ => None
       end.

(** The submodules the loop iterates over. *)
Definition listed (imp : importer) (name : string) : list submodule :=
  match import_module imp (PACKAGE_NAME ++ "." ++ name) with
  | Ok pkg_path => pkgutil_iter_modules imp pkg_path ((PACKAGE_NAME ++ "." ++ name) ++ ".")
  | Raise _ => []
  end.

Definition compat_outcome (env : environ) (imp : importer) (name : string) : result py_module :=
  exec_file_location imp name
    (Pathlib.of_segments [get_executable_path env; COMPAT_PACKAGE_NAME; name; "__init__.py"]).

(** The classes the legacy package offers. *)
Definition compat_offered (env : environ) (imp : importer) (suffix name : string)
  : option (gmap string pyobj) :=
  match compat_outcome env imp name with
  | Ok plugins => Some (module_classes suffix plugins name)
  | Raise _ => None
  end.

(** Every offer of one load, in the order [load_module] receives them. *)
Definition scan_order (env : environ) (imp : importer) (suffix name : string)
  : list (gmap string pyobj) :=
  (omap (offered imp suffix) (listed imp name)
   ++ option_list (compat_offered env imp suffix name))%list.

(** The earliest binding of a name among a sequence of offers. *)
Fixpoint earliest (k : string) (offers : list (gmap string pyobj)) : option pyobj :=
  match offers with
  | [] => None
  | mc :: rest =>
      match mc !! k with
      | Some v => Some v
      | None => earliest k rest
      end
  end.

(** The binding of a name once every offer is merged: a pre-existing
    entry, else the earliest offer. *)
Definition first_wins (k : string) (namespace : gmap string pyobj)
    (offers : list (gmap string pyobj)) : option pyobj :=
  match namespace !! k with
  | Some v => Some v
  | None => earliest k offers
  end.

(** [classes] once a sequence of offers has gone through [load_module]. *)
Definition merge_all (namespace classes : gmap string pyobj)
    (offers : list (gmap string pyobj)) : gmap string pyobj :=
  foldl (λ cl mc, merged cl namespace mc) classes offers.

(** The exception the import of a listed submodule raises, if it is not
    skipped and raises one. *)
Definition failure (imp : importer) (sm : submodule) : option exn :=
  if re_match_private (sm_name sm) then None
  else match import_outcome imp sm with
       | Ok _ => None
       | Raise e => Some e
       end.

(** The diagnostics of the failures the handler catches, in order. *)
Definition diagnostics (imp : importer) (mods : list submodule) : list string :=
  omap (λ sm, match failure imp sm with
              | Some e => if is_Exception e then Some (diagnostic imp (sm_name sm) e) else None
              | None => None
              end) mods.

(** ** Class selection in the words of the specification *)

(** A qualified name at or below a package path. *)
Definition descendant_of (package qualified : string) : Prop :=
  qualified = package ∨ ∃ rest, qualified = package ++ "." ++ rest.

(** "Collected if and only if it is a class, its name ends with the
    suffix and does not start with an underscore, it is defined in a
    module below the category's own package path, and it is in the
    allowlist when there is one". *)
Definition selected_by_category (suffix category : string) (module : py_module)
    (module_name : string) : Prop :=
  ∀ symbol obj, mod_dict module !! symbol = Some obj →
    module_classes suffix module module_name !! symbol = Some obj
    ↔ ∃ c, obj = PyClass c
        ∧ (∃ pre, __name__ c = pre ++ suffix)
        ∧ ¬ (∃ rest, __name__ c = "_" ++ rest)
        ∧ descendant_of (PACKAGE_NAME ++ "." ++ category) (__module__ c)
        ∧ (∀ allow, mod___all__ module = Some allow → __name__ c ∈ allow).

(** ** Concrete plugins *)

Definition BarIE : class_obj :=
  {| cls_id := 1; __name__ := "BarIE"; __module__ := "yt_dlp_plugins.extractor.bar" |}.
Definition FooIE : class_obj :=
  {| cls_id := 2; __name__ := "FooIE"; __module__ := "yt_dlp_plugins.extractor.foo" |}.
Definition YoutubeIE : class_obj :=
  {| cls_id := 3; __name__ := "YoutubeIE"; __module__ := "yt_dlp.extractor.youtube" |}.
(** A plugin that overrides a built-in name. *)
Definition plugin_YoutubeIE : class_obj :=
  {| cls_id := 4; __name__ := "YoutubeIE"; __module__ := "yt_dlp_plugins.extractor.foo" |}.
(** A class of the legacy package. *)
Definition LegacyIE : class_obj :=
  {| cls_id := 5; __name__ := "LegacyIE"; __module__ := "extractor" |}.

(** [yt_dlp_plugins/extractor/bar.py]: defines [BarIE]. *)
Definition bar_module : py_module :=
  {| mod_dict := {[ "BarIE" := PyClass BarIE ]}; mod___all__ := None |}.

(** [yt_dlp_plugins/extractor/foo.py]: imports [BarIE] from its sibling
    and [InfoExtractor] from the program, defines [FooIE] and its own
    [YoutubeIE]. *)
Definition foo_module : py_module :=
  {| mod_dict := <["BarIE" := PyClass BarIE]>
                   (<["FooIE" := PyClass FooIE]>
                      (<["YoutubeIE" := PyClass plugin_YoutubeIE]>
                         {[ "re" := PyOther "module re" ]}));
     mod___all__ := None |}.

Definition legacy_module : py_module :=
  {| mod_dict := {[ "LegacyIE" := PyClass LegacyIE ]}; mod___all__ := None |}.

(** A submodule that the source loader finds and executes to [module]. *)
Definition sourced (name : string) (outcome : result py_module) : submodule :=
  {| sm_zipimporter := false; sm_name := name;
     sm_load_module := outcome; sm_module_from_spec := Ok tt; sm_exec_module := outcome |}.

(** An import machinery that lists [mods] under [yt_dlp_plugins.extractor]
    and finds the legacy package in the state [legacy]. *)
Definition machinery (mods : list submodule) (legacy : result py_module) : importer :=
  {| version_lt_3_10 := false;
     import_module := λ fullname,
       if String.eqb fullname "yt_dlp_plugins.extractor"
       then Ok ["/home/u/.config/yt-dlp/plugins/myplugins/yt_dlp_plugins/extractor"]
       else Raise ModuleNotFoundError;
     pkgutil_iter_modules := λ _ _, mods;
     exec_file_location := λ _ _, legacy;
     format_exc := λ e, "Traceback (most recent call last)" |}.

(** A store that holds the namespace of built-in classes at reference 0. *)
Definition builtin_store : lstate :=
  {| heap := [ {[ "YoutubeIE" := PyClass YoutubeIE ]} ]; sys_modules := ∅; stderr := [] |}.

(** ** The outcome of [load_plugins] *)

(** The dict the caller passes; [None] counts as empty. *)
Definition caller_namespace (st : lstate) (namespace : option nat) : gmap string pyobj :=
  match namespace with
  | Some r => dict_at st r
  | None => ∅
  end.

(** The candidates that survive a load. *)
Definition surviving (env : environ) (imp : importer) (suffix name : string)
    (namespace : gmap string pyobj) : gmap string pyobj :=
  merge_all namespace ∅ (scan_order env imp suffix name).

(** The store after a load that returns: [classes] is a new dict at the
    end of the store; the namespace is the caller's dict, updated, or a
    second new dict when the caller passed [None] or an empty dict. *)
Definition store_after (st : lstate) (namespace : option nat) (cl : gmap string pyobj)
  : list (gmap string pyobj) :=
  match namespace with
  | Some r =>
      if decide (dict_at st r = ∅) then (heap st ++ [cl; cl])%list
      else (<[r := cl ∪ dict_at st r]> (heap st) ++ [cl])%list
  | None => (heap st ++ [cl; cl])%list
  end.

(** The exceptions that leave [load_plugins]. *)
Definition escapes (env : environ) (imp : importer) (name : string) (e : exn) : Prop :=
  (import_module imp (PACKAGE_NAME ++ "." ++ name) = Raise e ∧ is_ModuleNotFoundError e = false)
  ∨ (∃ sm, sm ∈ listed imp name ∧ failure imp sm = Some e ∧ is_Exception e = false)
  ∨ (compat_outcome env imp name = Raise e ∧ is_FileNotFoundError e = false).

(** ** [load_plugins] in the words of the specification *)

(** "[load_plugins] never propagates an exception to its caller". *)
Definition never_raises (env : environ) (imp : importer) (suffix name : string)
    (namespace : option nat) (st : lstate) : Prop :=
  ∃ c st', load_plugins env imp suffix name namespace st = (Ok c, st').

(** "The value returned is the caller-supplied namespace, updated in
    place: one mapping, with the pre-existing entries in it". *)
Definition returns_namespace (env : environ) (imp : importer) (suffix name : string)
    (r : nat) (st : lstate) : Prop :=
  ∀ c st', load_plugins env imp suffix name (Some r) st = (Ok c, st') →
    c = r ∧ ∀ k v, dict_at st r !! k = Some v → dict_at st' c !! k = Some v.

(** A second [foo.py], in a later root, with a [FooIE] of its own. *)
Definition later_FooIE : class_obj :=
  {| cls_id := 6; __name__ := "FooIE"; __module__ := "yt_dlp_plugins.extractor.foo" |}.
Definition later_foo_module : py_module :=
  {| mod_dict := {[ "FooIE" := PyClass later_FooIE ]}; mod___all__ := None |}.

(** Two roots with a [foo.py] each, a module that fails on import
    between them, and a legacy package. *)
Definition two_roots : importer :=
  machinery
    [ sourced "yt_dlp_plugins.extractor.foo" (Ok foo_module);
      sourced "yt_dlp_plugins.extractor.broken" (Raise (Exception_ "SyntaxError"));
      sourced "yt_dlp_plugins.extractor.foo" (Ok later_foo_module) ]
    (Ok legacy_module).

(** * Vocabulary of the further properties *)

(** The test of the [elif] of [search_locations]. *)
Definition archive_test (fs : filesystem) (path : Path) : bool :=
  negb (String.eqb (Pathlib.name path) "")
  && existsb (λ suffix, is_file fs (Pathlib.with_suffix path suffix)) archive_suffixes.

(** The state once [ZipFile(archive)] has been opened. *)
Definition opened (archive : Path) (st : fstate) : fstate :=
  {| self := self st; zip_opened := (zip_opened st ++ [archive])%list |}.

(** Offers that agree wherever two of them bind the same name. *)
Definition agreeing (offers : list (gmap string pyobj)) : Prop :=
  ∀ mc1 mc2 k v w, mc1 ∈ offers → mc2 ∈ offers →
    mc1 !! k = Some v → mc2 !! k = Some w → v = w.

(** Whether the loop assigns [sys.modules[module_name]] for a listed
    submodule: it is not skipped, it is imported through [find_spec],
    and a module object could be made from its spec. *)
Definition registers (imp : importer) (sm : submodule) : bool :=
  negb (re_match_private (sm_name sm))
  && negb (version_lt_3_10 imp && sm_zipimporter sm)
  && match sm_module_from_spec sm with Ok _ => true | Raise _ => false end.

(** ** Regular expressions

    The fragment of [re] that the pattern of [load_plugins] is written
    in, with the usual semantics: the strings an expression matches in
    full. *)
Inductive regex :=
  | Class (P : ascii → bool)
  | Cat (r1 r2 : regex)
  | Star (r : regex)
  | Plus (r : regex).

Inductive matches : regex → string → Prop :=
  | matches_class P c : P c = true → matches (Class P) (String c "")
  | matches_cat r1 r2 s1 s2 :
      matches r1 s1 → matches r2 s2 → matches (Cat r1 r2) (s1 ++ s2)
  | matches_star_nil r : matches (Star r) ""
  | matches_star_cons r s1 s2 :
      matches r s1 → matches (Star r) s2 → matches (Star r) (s1 ++ s2)
  | matches_plus_one r s : matches r s → matches (Plus r) s
  | matches_plus_cons r s1 s2 :
      matches r s1 → matches (Plus r) s2 → matches (Plus r) (s1 ++ s2).

(** [re.match(r, s)] finds a match: some prefix of [s] matches [r]. *)
Definition re_match (r : regex) (s : string) : Prop :=
  ∃ pre rest, s = pre ++ rest ∧ matches r pre.

(** The pattern of [load_plugins]: word characters and a dot, any
    number of times, then an underscore. The anchor of the source is
    implied by [re.match]. *)
Definition private_pattern : regex :=
  Cat (Star (Cat (Plus (Class is_word_char)) (Class (Ascii.eqb "."%char))))
      (Class (Ascii.eqb "_"%char)).

(** ** More concrete installations *)

(** A finder that has cached [myplugins.zip] as holding the lone
    directory entry [yt_dlp_plugins/extractor/]. *)
Definition cached_finder : fstate := {|
  self := {| packages := packages (self fresh_finder);
             _zip_content_cache :=
               {[ myplugins_zip := [Pathlib.of_string "yt_dlp_plugins/extractor/"] ]} |};
  zip_opened := [];
|}.

(** The installation with a [myplugins.zip] that is no zip archive. *)
Definition corrupt_fs : filesystem := {|
  is_dir := λ p, bool_decide (p = plugins_dir);
  is_file := λ p, bool_decide (p = myplugins_zip);
  iterdir := λ p, if bool_decide (p = plugins_dir) then [myplugins_zip] else [];
  zip_namelist := λ p,
    if bool_decide (p = myplugins_zip) then Raise BadZipFile else Raise FileNotFoundError;
|}.

(** The installation with a plugin directory [myplugins] in place of
    the archive, holding [yt_dlp_plugins/extractor]. *)
Definition dir_fs : filesystem := {|
  is_dir := λ p,
    bool_decide (p ∈ [plugins_dir; myplugins;
                      (myplugins ++ ["yt_dlp_plugins"])%list;
                      (myplugins ++ ["yt_dlp_plugins"; "extractor"])%list]);
  is_file := λ _, false;
  iterdir := λ p, if bool_decide (p = plugins_dir) then [myplugins] else [];
  zip_namelist := λ _, Raise FileNotFoundError;
|}.

(** [foo.py] and [bar.py] listed in either order, without a legacy
    package. *)
Definition foo_then_bar : importer :=
  machinery
    [ sourced "yt_dlp_plugins.extractor.foo" (Ok foo_module);
      sourced "yt_dlp_plugins.extractor.bar" (Ok bar_module) ]
    (Raise FileNotFoundError).
Definition bar_then_foo : importer :=
  machinery
    [ sourced "yt_dlp_plugins.extractor.bar" (Ok bar_module);
      sourced "yt_dlp_plugins.extractor.foo" (Ok foo_module) ]
    (Raise FileNotFoundError).

(** [foo.py] and a legacy package that raises on execution. *)
Definition failing_legacy : importer :=
  machinery [ sourced "yt_dlp_plugins.extractor.foo" (Ok foo_module) ]
    (Raise (Exception_ "ValueError")).

(** A store whose only dict, at reference 0, is empty. *)
Definition empty_store : lstate :=
  {| heap := [∅]; sys_modules := ∅; stderr := [] |}.

(** The built-in namespace at reference 0 and a registry under
    construction at reference 1. *)
Definition two_dicts : lstate :=
  {| heap := [ {[ "YoutubeIE" := PyClass YoutubeIE ]}; ∅ ];
     sys_modules := ∅; stderr := [] |}.

(** * Properties *)

Create HintDb monad discriminated.
#[global] Hint Unfold bind ret gets modify lift raise suppress try_except : monad.

Ltac run := autounfold with monad in *; simpl in *.

(** ** The embedding on examples *)

Example of_string_relative : Pathlib.of_string "extractor/bar.py" = ["extractor"; "bar.py"].
Proof. reflexivity. Qed.

Example of_string_absolute : Pathlib.of_string "/usr//lib/./x/" = ["/"; "usr"; "lib"; "x"].
Proof. reflexivity. Qed.

Example parents_absolute : Pathlib.parents ["/"; "usr"; "lib"] = [["/"; "usr"]; ["/"]].
Proof. reflexivity. Qed.

Example parents_relative : Pathlib.parents ["extractor"; "bar.py"] = [["extractor"]; []].
Proof. reflexivity. Qed.

Example with_suffix_replaces : Pathlib.with_suffix ["a"; "b.tar.gz"] ".zip" = ["a"; "b.tar.zip"].
Proof. reflexivity. Qed.

Example with_suffix_appends : Pathlib.with_suffix ["a"; ".hidden"] ".egg" = ["a"; ".hidden.egg"].
Proof. reflexivity. Qed.

Example partition_extractor :
  partition "yt_dlp_plugins.extractor" = ["yt_dlp_plugins"; "yt_dlp_plugins.extractor"].
Proof. reflexivity. Qed.

Example fromkeys_keeps_first : dict_fromkeys [1; 2; 1; 3; 2] = [1; 2; 3].
Proof. reflexivity. Qed.

Example private_submodule : re_match_private "yt_dlp_plugins.extractor._private" = true.
Proof. reflexivity. Qed.

Example public_submodule : re_match_private "yt_dlp_plugins.extractor.foo" = false.
Proof. reflexivity. Qed.

Example dashed_submodule : re_match_private "yt_dlp_plugins.my-plugins._x" = false.
Proof. reflexivity. Qed.

Example hidden_class_not_collected :
  check_predicate "IE" "yt_dlp_plugins.extractor.foo" foo_module
    (PyClass {| cls_id := 7; __name__ := "_HiddenIE";
                __module__ := "yt_dlp_plugins.extractor.foo" |}) = false.
Proof. reflexivity. Qed.

(** ** The archive index: [zip_has_dir] *)

Section ArchiveIndex.
Variable fs : filesystem.

(** A cached archive is answered from the cache: nothing is opened, the
    state is as it was, whatever the file system holds by now. *)
Lemma zip_has_dir_cached archive path files st :
  cache_of st !! archive = Some files →
  zip_has_dir fs archive path st = (Ok (has_directory files path), st).
Proof.
  intros Hc. unfold zip_has_dir, cache_of in *. run.
  destruct (decide (archive ∉ dom (_zip_content_cache (self st)))) as [Hn|_].
  - exfalso. apply Hn. apply elem_of_dom. eauto.
  - simpl. by rewrite Hc.
Qed.

(** The first query of an archive that can be read opens it once and
    records its listing. *)
Lemma zip_has_dir_first archive path names st :
  cache_of st !! archive = None →
  zip_namelist fs archive = Ok names →
  zip_has_dir fs archive path st
  = (Ok (has_directory (Pathlib.of_string <$> names) path),
     {| self := {| packages := packages (self st);
                   _zip_content_cache :=
                     <[archive := Pathlib.of_string <$> names]> (cache_of st) |};
        zip_opened := zip_opened st ++ [archive] |}).
Proof.
  intros Hc Hz. unfold zip_has_dir, cache_of in *. run.
  destruct (decide (archive ∉ dom (_zip_content_cache (self st)))) as [_|Hn].
  - unfold ZipFile_namelist. rewrite Hz. simpl.
    by rewrite lookup_insert_eq.
  - exfalso. apply Hn. by apply not_elem_of_dom.
Qed.

(** A read that raises leaves the finder as it was; only the log shows
    the attempt. *)
Lemma zip_has_dir_raises archive path e st :
  cache_of st !! archive = None →
  zip_namelist fs archive = Raise e →
  zip_has_dir fs archive path st
  = (Raise e, {| self := self st; zip_opened := zip_opened st ++ [archive] |}).
Proof.
  intros Hc Hz. unfold zip_has_dir, cache_of in *. run.
  destruct (decide (archive ∉ dom (_zip_content_cache (self st)))) as [_|Hn].
  - unfold ZipFile_namelist. by rewrite Hz.
  - exfalso. apply Hn. by apply not_elem_of_dom.
Qed.

End ArchiveIndex.


Lemma queries_cached archive files qs st :
  cache_of st !! archive = Some files →
  queries archive qs st = (Ok ((λ q, has_directory files q.2) <$> qs), st).
Proof.
  intros Hc. induction qs as [|[fs path] rest IH]; simpl; [done|].
  unfold bind at 1. rewrite (zip_has_dir_cached _ _ _ files) by done.
  unfold bind at 1. rewrite IH. done.
Qed.


(** C9. Archive-index caching: from a state in which [archive] is not
    cached, and when the archive can be read, the first containment query
    opens the archive once and records its full ordered listing under
    [archive]; any run of later queries for that archive, whatever the
    file system holds by then, is answered from the recorded listing and
    leaves the state, and so the log of opened archives, as it is: one
    read in all. After [invalidate_caches] the next query opens the
    archive again. *)
Theorem archive_read_once fs archive names path (later : list (filesystem * Path))
    sys_modules st :
  cache_of st !! archive = None →
  zip_namelist fs archive = Ok names →
  ∃ st1,
    zip_has_dir fs archive path st
    = (Ok (has_directory (Pathlib.of_string <$> names) path), st1)
    ∧ zip_opened st1 = (zip_opened st ++ [archive])%list
    ∧ cache_of st1 = <[archive := Pathlib.of_string <$> names]> (cache_of st)
    ∧ queries archive later st1
      = (Ok ((λ q, has_directory (Pathlib.of_string <$> names) q.2) <$> later), st1)
    ∧ ∀ fs' names' path',
        zip_namelist fs' archive = Ok names' →
        ∃ st2,
          zip_has_dir fs' archive path' (invalidated sys_modules st1)
          = (Ok (has_directory (Pathlib.of_string <$> names') path'), st2)
          ∧ zip_opened st2 = (zip_opened st1 ++ [archive])%list.
Proof.
  intros Hc Hz. eexists. split; [by apply zip_has_dir_first|].
  split; [done|]. split; [done|]. split.
  - apply queries_cached. unfold cache_of. simpl. apply lookup_insert_eq.
  - intros fs' names' path' Hz'. eexists. split.
    + apply zip_has_dir_first; [apply lookup_empty|done].
    + done.
Qed.

(** C10. A read that raises records nothing: the finder, and with it the
    cache, is as before the query, no entry stands under [archive], and
    the next query for [archive] opens the archive again and answers
    from what it then reads. In [search_locations] a [FileNotFoundError]
    from the read is suppressed and the candidate adds no location. *)
Theorem failed_read_not_cached fs archive e path st :
  cache_of st !! archive = None →
  zip_namelist fs archive = Raise e →
  ∃ st1,
    zip_has_dir fs archive path st = (Raise e, st1)
    ∧ self st1 = self st
    ∧ cache_of st1 !! archive = None
    ∧ zip_opened st1 = (zip_opened st ++ [archive])%list
    ∧ (∀ fs' path', ∃ st2,
         zip_has_dir fs' archive path' st1
         = (match zip_namelist fs' archive with
            | Ok names' => Ok (has_directory (Pathlib.of_string <$> names') path')
            | Raise e' => Raise e'
            end, st2)
         ∧ zip_opened st2 = (zip_opened st ++ [archive; archive])%list)
    ∧ (e = FileNotFoundError →
       ∀ locations,
         is_dir fs (Pathlib.joinpath archive path) = false →
         Pathlib.name archive ≠ "" →
         existsb (λ suffix, is_file fs (Pathlib.with_suffix archive suffix)) archive_suffixes
         = true →
         search_step fs path locations archive st = (Ok locations, st1)).
Proof.
  intros Hc Hz.
  pose proof (zip_has_dir_raises fs archive path e st Hc Hz) as Hq.
  eexists. split; [exact Hq|]. split; [done|]. split; [done|]. split; [done|]. split.
  - intros fs' path'. destruct (zip_namelist fs' archive) as [names'|e'] eqn:Hz'.
    + eexists. split; [by apply zip_has_dir_first|]. simpl. by rewrite <- app_assoc.
    + eexists. split; [by apply zip_has_dir_raises|]. simpl. by rewrite <- app_assoc.
  - intros -> locations Hd Hn Hf. unfold search_step. rewrite Hd.
    apply String.eqb_neq in Hn. rewrite Hn, Hf. simpl.
    unfold suppress, bind. by rewrite Hq.
Qed.

(** C4. The resolution contract of [find_spec]: a name outside the
    watched set is declined at once; for a watched name whose location
    set resolves to the empty set the answer is [None]; otherwise the
    answer is a package spec whose [submodule_search_locations] is the
    resolved set and whose loader is a [PluginLoader], the execution of
    which returns [None] and changes nothing. *)
Theorem find_spec_contract fs env fullname st :
  (fullname ∉ packages (self st) → find_spec fs env fullname st = (Ok None, st))
  ∧ (fullname ∈ packages (self st) →
     ∀ locations st',
       search_locations fs env fullname st = (Ok locations, st') →
       (locations = ∅ → find_spec fs env fullname st = (Ok None, st'))
       ∧ (locations ≠ ∅ →
          ∃ spec,
            find_spec fs env fullname st = (Ok (Some spec), st')
            ∧ spec_name spec = fullname
            ∧ submodule_search_locations spec = Some locations
            ∧ spec_loader spec = PluginLoader
            ∧ ∀ (S : Type) module (s : S),
                exec_module (spec_loader spec) module s = (Ok tt, s))).
Proof.
  split.
  - intros Hn. unfold find_spec. run. by rewrite decide_True.
  - intros Hin locations st' Hs. unfold find_spec. run.
    rewrite decide_False by (intros Hn; by apply Hn). rewrite Hs. split.
    + intros ->. by rewrite decide_True.
    + intros Hne. rewrite decide_False by done. eexists. split; [reflexivity|]. done.
Qed.

(** C6. [initialize] is idempotent: from a state whose flag is clear, any
    positive number of calls leaves the flag set and [sys.meta_path]
    with the one finder the first call put at its head; a call on a state
    whose flag is set changes nothing. *)
Theorem initialize_idempotent st n :
  Nat.iter (S n) initialize st = initialize st
  ∧ _INITIALIZED (initialize st) = true
  ∧ initialize (initialize st) = initialize st
  ∧ (_INITIALIZED st = true → initialize st = st)
  ∧ (_INITIALIZED st = false →
     sys_meta_path (Nat.iter (S n) initialize st)
     = PluginFinder_object
         (PluginFinder_init ["yt_dlp_plugins.extractor"; "yt_dlp_plugins.postprocessor"])
       :: sys_meta_path st).
Proof.
  assert (Hflag : _INITIALIZED (initialize st) = true).
  { unfold initialize. by destruct (_INITIALIZED st) eqn:E. }
  assert (Hfix : ∀ s, _INITIALIZED s = true → initialize s = s).
  { intros s Hs. unfold initialize. by rewrite Hs. }
  assert (Hiter : Nat.iter (S n) initialize st = initialize st).
  { induction n as [|n IH]; [done|].
    change (Nat.iter (S (S n)) initialize st)
      with (initialize (Nat.iter (S n) initialize st)).
    rewrite IH. by apply Hfix. }
  split; [done|]. split; [done|]. split; [by apply Hfix|]. split; [by apply Hfix|].
  intros Hs. rewrite Hiter. unfold initialize. by rewrite Hs.
Qed.

Lemma archive_read_once_witness :
  ∃ st1,
    zip_has_dir (zip_fs ["yt_dlp_plugins/extractor/bar.py"]) myplugins_zip
      ["yt_dlp_plugins"; "extractor"] fresh_finder = (Ok true, st1)
    ∧ zip_opened st1 = [myplugins_zip]
    ∧ queries myplugins_zip
        [(empty_fs, ["yt_dlp_plugins"; "extractor"]); (empty_fs, ["extractor"])] st1
      = (Ok [true; false], st1).
Proof.
  destruct (archive_read_once (zip_fs ["yt_dlp_plugins/extractor/bar.py"]) myplugins_zip
              ["yt_dlp_plugins/extractor/bar.py"] ["yt_dlp_plugins"; "extractor"]
              [(empty_fs, ["yt_dlp_plugins"; "extractor"]); (empty_fs, ["extractor"])]
              ∅ fresh_finder)
    as (st1 & H1 & H2 & _ & H4 & _).
  - reflexivity.
  - reflexivity.
  - exists st1. split; [exact H1|]. split; [exact H2|]. exact H4.
Defined.

Lemma failed_read_not_cached_witness :
  ∃ st1,
    zip_has_dir (zip_fs []) myplugins ["yt_dlp_plugins"; "extractor"] fresh_finder
    = (Raise FileNotFoundError, st1)
    ∧ self st1 = self fresh_finder
    ∧ search_step (zip_fs []) ["yt_dlp_plugins"; "extractor"] ∅ myplugins fresh_finder
      = (Ok ∅, st1).
Proof.
  destruct (failed_read_not_cached (zip_fs []) myplugins FileNotFoundError
              ["yt_dlp_plugins"; "extractor"] fresh_finder)
    as (st1 & H1 & H2 & _ & _ & _ & H6).
  - reflexivity.
  - reflexivity.
  - exists st1. split; [exact H1|]. split; [exact H2|].
    apply H6; [reflexivity|reflexivity|discriminate|reflexivity].
Defined.

Lemma find_spec_contract_witness :
  find_spec empty_fs home_env "os.path" fresh_finder = (Ok None, fresh_finder)
  ∧ find_spec empty_fs home_env "yt_dlp_plugins.extractor" fresh_finder
    = (Ok None, fresh_finder)
  ∧ ∃ spec st',
      find_spec (zip_fs ["yt_dlp_plugins/extractor/bar.py"]) home_env
        "yt_dlp_plugins.extractor" fresh_finder = (Ok (Some spec), st')
      ∧ submodule_search_locations spec
        = Some {["/home/u/.config/yt-dlp/plugins/myplugins.zip/yt_dlp_plugins/extractor"]}.
Proof.
  split; [|split].
  - apply (find_spec_contract empty_fs home_env "os.path" fresh_finder).
    apply (bool_decide_unpack _). vm_compute. exact I.
  - apply (proj2 (find_spec_contract empty_fs home_env "yt_dlp_plugins.extractor"
                    fresh_finder)) with (locations := ∅).
    + apply (bool_decide_unpack _). vm_compute. exact I.
    + vm_compute. reflexivity.
    + reflexivity.
  - destruct (proj2 (find_spec_contract (zip_fs ["yt_dlp_plugins/extractor/bar.py"]) home_env
                       "yt_dlp_plugins.extractor" fresh_finder))
      with (locations :=
              ({["/home/u/.config/yt-dlp/plugins/myplugins.zip/yt_dlp_plugins/extractor"]}
               : gset string))
           (st' := (search_locations (zip_fs ["yt_dlp_plugins/extractor/bar.py"]) home_env
                      "yt_dlp_plugins.extractor" fresh_finder).2)
      as [_ Hne].
    + apply (bool_decide_unpack _). vm_compute. exact I.
    + vm_compute. reflexivity.
    + destruct Hne as (spec & Hs & _ & Hl & _).
      * apply (bool_decide_unpack _). vm_compute. exact I.
      * exists spec. eexists. split; [exact Hs|exact Hl].
Defined.

Lemma initialize_idempotent_witness :
  initialize {| _INITIALIZED := true; sys_meta_path := [other_finder "PathFinder"] |}
  = {| _INITIALIZED := true; sys_meta_path := [other_finder "PathFinder"] |}
  ∧ sys_meta_path
      (Nat.iter 3 initialize
         {| _INITIALIZED := false; sys_meta_path := [other_finder "PathFinder"] |})
    = [PluginFinder_object
         (PluginFinder_init ["yt_dlp_plugins.extractor"; "yt_dlp_plugins.postprocessor"]);
       other_finder "PathFinder"].
Proof.
  split.
  - apply (initialize_idempotent
             {| _INITIALIZED := true; sys_meta_path := [other_finder "PathFinder"] |} 0).
    reflexivity.
  - apply (initialize_idempotent
             {| _INITIALIZED := false; sys_meta_path := [other_finder "PathFinder"] |} 2).
    reflexivity.
Defined.

(** ** Resolution: [search_locations] *)

Lemma elem_of_dict_fromkeys {A} `{EqDecision A} (l : list A) x :
  x ∈ dict_fromkeys l ↔ x ∈ l.
Proof.
  induction l as [|y l IH]; simpl; [done|].
  rewrite !elem_of_cons, list_elem_of_filter, IH.
  destruct (decide (x = y)); naive_solver.
Qed.

Lemma NoDup_dict_fromkeys {A} `{EqDecision A} (l : list A) : NoDup (dict_fromkeys l).
Proof.
  induction l as [|y l IH]; simpl; [constructor|].
  constructor.
  - rewrite list_elem_of_filter. naive_solver.
  - by apply NoDup_filter.
Qed.

Section Resolution.
Variable fs : filesystem.

(** A query touches the cache at its own archive only. *)
Lemma zip_has_dir_frame archive path st a :
  a ≠ archive →
  cache_of (zip_has_dir fs archive path st).2 !! a = cache_of st !! a.
Proof.
  intros Hne. destruct (cache_of st !! archive) as [files|] eqn:Hc.
  - by rewrite (zip_has_dir_cached fs archive path files).
  - destruct (zip_namelist fs archive) as [names|e] eqn:Hz.
    + rewrite (zip_has_dir_first fs archive path names) by done.
      unfold cache_of. simpl. by rewrite lookup_insert_ne.
    + by rewrite (zip_has_dir_raises fs archive path e).
Qed.

Lemma search_step_frame parts locations path st a :
  a ≠ path →
  cache_of (search_step fs parts locations path st).2 !! a = cache_of st !! a.
Proof.
  intros Hne. unfold search_step.
  destruct (is_dir fs _); [done|].
  destruct (_ && _); [|done].
  unfold suppress, bind.
  pose proof (zip_has_dir_frame path parts st a Hne) as Hf.
  destruct (zip_has_dir fs path parts st) as [[[]|e] st1]; simpl in *; try done.
  by destruct (is_FileNotFoundError e).
Qed.

(** A step adds the location of its own candidate, or nothing. *)
Lemma search_step_adds parts locations path st locations' st' :
  search_step fs parts locations path st = (Ok locations', st') →
  locations' = locations
  ∨ locations' = locations ∪ {[Pathlib.str (Pathlib.joinpath path parts)]}.
Proof.
  unfold search_step.
  destruct (is_dir fs _); [run; naive_solver|].
  destruct (_ && _); [|run; naive_solver].
  unfold suppress, bind.
  destruct (zip_has_dir fs path parts st) as [[[]|e] st1]; run; try naive_solver.
  destruct (is_FileNotFoundError e); naive_solver.
Qed.

(** The step of an archive candidate whose listing is read. *)
Lemma search_step_archive parts locations archive names st :
  is_dir fs (Pathlib.joinpath archive parts) = false →
  Pathlib.name archive ≠ "" →
  existsb (λ suffix, is_file fs (Pathlib.with_suffix archive suffix)) archive_suffixes = true →
  cache_of st !! archive = None →
  zip_namelist fs archive = Ok names →
  (search_step fs parts locations archive st).1
  = Ok (if has_directory (Pathlib.of_string <$> names) parts
        then locations ∪ {[Pathlib.str (Pathlib.joinpath archive parts)]}
        else locations).
Proof.
  intros Hd Hn Hf Hc Hz. unfold search_step. rewrite Hd.
  apply String.eqb_neq in Hn. rewrite Hn, Hf. simpl.
  unfold suppress, bind. rewrite (zip_has_dir_first fs archive parts names) by done.
  by destruct (has_directory _ _).
Qed.

Lemma search_loop_frame parts paths : ∀ locations st a,
  a ∉ paths →
  cache_of (search_loop fs parts locations paths st).2 !! a = cache_of st !! a.
Proof.
  induction paths as [|p paths IH]; intros locations st a Ha; simpl; [done|].
  apply not_elem_of_cons in Ha as [Hne Ha].
  unfold bind.
  pose proof (search_step_frame parts locations p st a Hne) as Hf.
  destruct (search_step fs parts locations p st) as [[l1|e] st1]; simpl in *; [|done].
  by rewrite IH.
Qed.

(** Candidates with another location string leave a location in or out
    as it was. *)
Lemma search_loop_others parts target paths : ∀ locations st locations' st',
  (∀ p, p ∈ paths → Pathlib.str (Pathlib.joinpath p parts) ≠ target) →
  search_loop fs parts locations paths st = (Ok locations', st') →
  target ∈ locations' ↔ target ∈ locations.
Proof.
  induction paths as [|p paths IH]; intros locations st locations' st' Hp; simpl.
  - run. naive_solver.
  - unfold bind.
    destruct (search_step fs parts locations p st) as [[l1|e] st1] eqn:Hs; [|done].
    intros Hl. rewrite (IH _ _ _ _ (λ q Hq, Hp q (list_elem_of_further _ _ _ Hq)) Hl).
    destruct (search_step_adds _ _ _ _ _ _ Hs) as [->| ->]; [done|].
    specialize (Hp p (list_elem_of_here _ _)). set_solver.
Qed.

Lemma search_loop_archive parts archive names paths : ∀ locations st locations' st',
  NoDup paths →
  archive ∈ paths →
  is_dir fs (Pathlib.joinpath archive parts) = false →
  Pathlib.name archive ≠ "" →
  existsb (λ suffix, is_file fs (Pathlib.with_suffix archive suffix)) archive_suffixes = true →
  cache_of st !! archive = None →
  zip_namelist fs archive = Ok names →
  (∀ p, p ∈ paths →
        Pathlib.str (Pathlib.joinpath p parts) = Pathlib.str (Pathlib.joinpath archive parts) →
        p = archive) →
  search_loop fs parts locations paths st = (Ok locations', st') →
  Pathlib.str (Pathlib.joinpath archive parts) ∈ locations'
  ↔ Pathlib.str (Pathlib.joinpath archive parts) ∈ locations
    ∨ has_directory (Pathlib.of_string <$> names) parts = true.
Proof.
  induction paths as [|p paths IH]; intros locations st locations' st' Hnd Hin Hd Hn Hf Hc Hz Hu;
    [by apply elem_of_nil in Hin|].
  apply NoDup_cons in Hnd as [Hnp Hnd]. simpl. unfold bind.
  destruct (search_step fs parts locations p st) as [[l1|e] st1] eqn:Hs; [|done].
  intros Hl. destruct (decide (p = archive)) as [->|Hne].
  - pose proof (search_step_archive parts locations archive names st Hd Hn Hf Hc Hz) as Ha.
    rewrite Hs in Ha. simpl in Ha. injection Ha as ->.
    rewrite (search_loop_others parts _ paths _ _ _ _ 
               (λ q Hq Heq, Hnp (eq_ind q (λ x, x ∈ paths) Hq archive
                                   (Hu q (list_elem_of_further _ _ _ Hq) Heq))) Hl).
    destruct (has_directory _ _); set_solver.
  - apply elem_of_cons in Hin as [->|Hin]; [done|].
    rewrite (IH l1 st1 locations' st' Hnd Hin Hd Hn Hf); try done.
    + destruct (search_step_adds _ _ _ _ _ _ Hs) as [->| ->]; [done|].
      assert (Pathlib.str (Pathlib.joinpath p parts)
              ≠ Pathlib.str (Pathlib.joinpath archive parts)) as Hstr.
      { intros Heq. apply Hne. apply Hu; [apply list_elem_of_here|done]. }
      set_solver.
    + pose proof (search_step_frame parts locations p st archive (not_eq_sym Hne)) as Hfr.
      rewrite Hs in Hfr. simpl in Hfr. by rewrite Hfr.
    + intros q Hq. apply Hu. by apply list_elem_of_further.
Qed.

End Resolution.




(** ** Root enumeration: [candidate_locations] *)

Lemma elem_of_get_package_paths fs roots folder p :
  p ∈ _get_package_paths fs roots folder
  ↔ ∃ root, root ∈ roots
      ∧ is_dir fs (Pathlib.joinpath (Pathlib.of_string root) (Pathlib.of_string folder)) = true
      ∧ p ∈ iterdir fs (Pathlib.joinpath (Pathlib.of_string root) (Pathlib.of_string folder)).
Proof.
  unfold _get_package_paths. rewrite list_elem_of_bind. split.
  - intros (config_dir & Hp & Hc).
    apply list_elem_of_fmap in Hc as (root & -> & Hroot).
    exists root. destruct (is_dir fs _) eqn:Hd; simpl in Hp; [done|].
    by apply elem_of_nil in Hp.
  - intros (root & Hroot & Hd & Hp). exists (Pathlib.of_string root).
    rewrite Hd. simpl. split; [done|]. apply list_elem_of_fmap. eauto.
Qed.

(** C8, as amended. The enumeration filters the configured roots by
    existence: a path is a candidate exactly when it is an entry of an
    existing [<root>/plugins] directory for a user or system
    configuration root, an entry of an existing [<root>/yt-dlp-plugins]
    directory for a legacy root, or an entry of [sys.path] taken as it
    is, existing or not. (The enumeration is a function of the file
    system and the configuration: it writes nothing.) *)
Theorem root_enumeration fs env p :
  p ∈ candidate_locations fs env
  ↔ (∃ root, root ∈ (get_user_config_dirs env ++ get_system_config_dirs env)%list
       ∧ is_dir fs (Pathlib.joinpath (Pathlib.of_string root) ["plugins"]) = true
       ∧ p ∈ iterdir fs (Pathlib.joinpath (Pathlib.of_string root) ["plugins"]))
    ∨ (∃ root, root ∈ legacy_roots env
       ∧ is_dir fs (Pathlib.joinpath (Pathlib.of_string root) ["yt-dlp-plugins"]) = true
       ∧ p ∈ iterdir fs (Pathlib.joinpath (Pathlib.of_string root) ["yt-dlp-plugins"]))
    ∨ (∃ entry, entry ∈ sys_path env ∧ p = Pathlib.of_string entry).
Proof.
  unfold candidate_locations.
  rewrite !elem_of_app, !elem_of_get_package_paths, list_elem_of_fmap.
  change (Pathlib.of_string "plugins") with ["plugins"].
  change (Pathlib.of_string "yt-dlp-plugins") with ["yt-dlp-plugins"].
  naive_solver.
Qed.

Lemma root_enumeration_witness :
  ["/"; "usr"; "lib"; "python3"; "site-packages"] ∈ candidate_locations empty_fs home_env
  ∧ myplugins_zip ∈ candidate_locations (zip_fs []) home_env.
Proof.
  split.
  - apply (root_enumeration empty_fs home_env). right. right.
    exists "/usr/lib/python3/site-packages". split; [apply list_elem_of_here|reflexivity].
  - apply (root_enumeration (zip_fs []) home_env). left.
    exists "/home/u/.config/yt-dlp". split; [apply list_elem_of_here|].
    split; [reflexivity|]. apply list_elem_of_here.
Defined.

(** C8, as the specification words it, fails: on a disk where the
    [plugins] folder of the user's configuration directory does not
    exist, that folder is not among the candidates. *)
Lemma enumeration_filters_counterexample : ¬ enumerated_unfiltered empty_fs home_env.
Proof.
  intros H. specialize (H "/home/u/.config/yt-dlp" (list_elem_of_here _ _)).
  vm_compute in H. apply elem_of_cons in H as [H|H]; [discriminate H|].
  by apply elem_of_nil in H.
Qed.

(** ** Python strings *)

Lemma append_cons c (s t : string) : String c s ++ t = String c (s ++ t).
Proof. reflexivity. Qed.

Lemma startswith_spec s p : Str.startswith s p = true ↔ ∃ rest, s = p ++ rest.
Proof.
  unfold Str.startswith. revert s. induction p as [|a p IH]; intros s; simpl.
  - split; [intros _; by exists s|intros _; by destruct s].
  - destruct s as [|b s]; simpl.
    + split; [done|intros [rest Hr]; discriminate Hr].
    + destruct (ascii_dec a b) as [->|Hne].
      * rewrite IH. split; intros [rest Hr]; exists rest; rewrite append_cons in *; congruence.
      * split; [done|intros [rest Hr]; rewrite append_cons in Hr; congruence].
Qed.

Lemma endswith_unfold s suf :
  Str.endswith s suf
  = if String.eqb s suf then true
    else match s with EmptyString => false | String _ s' => Str.endswith s' suf end.
Proof. by destruct s. Qed.

Lemma endswith_spec s suf : Str.endswith s suf = true ↔ ∃ pre, s = pre ++ suf.
Proof.
  split.
  - induction s as [|c s IH]; rewrite endswith_unfold.
    + destruct (String.eqb_spec "" suf) as [<-|Hne]; [intros _; by exists ""|done].
    + destruct (String.eqb_spec (String c s) suf) as [<-|Hne]; [intros _; by exists ""|].
      intros [pre ->]%IH. by exists (String c pre).
  - intros [pre ->]. induction pre as [|c pre IH]; rewrite endswith_unfold.
    + change ("" ++ suf) with suf. by rewrite String.eqb_refl.
    + rewrite append_cons. by destruct (String.eqb _ _).
Qed.

(** ** Class selection: [check_predicate] *)

(** C3, as amended. A top-level symbol of an executed module is
    collected exactly when its value is a class whose [__name__] ends
    with the required suffix and does not start with an underscore,
    whose [__module__] has the qualified name of the executed module
    itself as a string prefix, and whose [__name__] is in [__all__] when
    the module declares one. *)
Theorem class_selection suffix module module_name symbol obj :
  module_classes suffix module module_name !! symbol = Some obj
  ↔ mod_dict module !! symbol = Some obj
    ∧ ∃ c, obj = PyClass c
        ∧ (∃ pre, __name__ c = pre ++ suffix)
        ∧ ¬ (∃ rest, __name__ c = "_" ++ rest)
        ∧ (∃ rest, __module__ c = module_name ++ rest)
        ∧ (∀ allow, mod___all__ module = Some allow → __name__ c ∈ allow).
Proof.
  unfold module_classes. rewrite map_lookup_filter_Some. simpl.
  apply and_iff_compat_l. destruct obj as [c|descr]; simpl.
  - rewrite !andb_true_iff, negb_true_iff, bool_decide_eq_true.
    rewrite endswith_spec, startswith_spec, <- not_true_iff_false, startswith_spec.
    split.
    + intros [[[He Hm] Hu] Ha]. exists c. repeat split; try done.
      intros allow Hall. by rewrite Hall in Ha.
    + intros (c' & [= <-] & He & Hu & Hm & Ha). repeat split; try done.
      destruct (mod___all__ module) as [allow|]; simpl; [by apply Ha|].
      apply list_elem_of_here.
  - split; [done|]. by intros (c & Hc & _).
Qed.

Lemma class_selection_witness :
  module_classes "IE" foo_module "yt_dlp_plugins.extractor.foo" !! "FooIE"
  = Some (PyClass FooIE).
Proof.
  apply (class_selection "IE" foo_module "yt_dlp_plugins.extractor.foo" "FooIE"
           (PyClass FooIE)).
  split; [reflexivity|]. exists FooIE. split; [reflexivity|].
  split; [by exists "Foo"|]. split; [intros [rest Hr]; discriminate Hr|].
  split; [by exists ""|]. intros allow Ha. discriminate Ha.
Defined.

(** C3, as the specification words it, fails: [foo.py] imports [BarIE]
    from its sibling [yt_dlp_plugins.extractor.bar], a module below the
    package path [yt_dlp_plugins.extractor] of the category, and [BarIE]
    is not collected from [foo]. *)
Lemma selection_by_category_counterexample :
  ¬ selected_by_category "IE" "extractor" foo_module "yt_dlp_plugins.extractor.foo".
Proof.
  intros H. specialize (H "BarIE" (PyClass BarIE) eq_refl) as [_ H].
  assert (Hc : module_classes "IE" foo_module "yt_dlp_plugins.extractor.foo" !! "BarIE"
               = Some (PyClass BarIE)).
  { apply H. exists BarIE. split; [done|]. split; [by exists "Bar"|]. split.
    - intros [rest Hr]. discriminate Hr.
    - split; [right; by exists "bar"|]. intros allow Ha. discriminate Ha. }
  vm_compute in Hc. discriminate Hc.
Qed.

(** ** Registration: [load_module] and the scan *)

(** The collision policy in one equation: a name bound in [classes]
    keeps its binding, a name of the namespace is not taken, any other
    name takes the binding the module offers. *)
Lemma merged_lookup (cl ns mc : gmap string pyobj) k :
  merged cl ns mc !! k
  = match cl !! k with
    | Some v => Some v
    | None => match ns !! k with
              | Some _ => None
              | None => mc !! k
              end
    end.
Proof.
  unfold merged. rewrite lookup_union.
  destruct (cl !! k) as [v|] eqn:Hcl.
  - rewrite map_lookup_filter_None_2; [done|].
    right. intros x Hx. simpl. intros Hn. apply Hn.
    apply elem_of_intersection. split; [|by apply elem_of_dom].
    apply elem_of_union_l. by apply elem_of_dom.
  - rewrite (right_id None _). destruct (ns !! k) as [w|] eqn:Hns.
    + apply map_lookup_filter_None_2.
      right. intros x Hx. simpl. intros Hn. apply Hn.
      apply elem_of_intersection. split; [|by apply elem_of_dom].
      apply elem_of_union_r. by apply elem_of_dom.
    + destruct (mc !! k) as [x|] eqn:Hmc.
      * apply map_lookup_filter_Some_2; [done|]. simpl.
        rewrite elem_of_intersection, elem_of_union, !elem_of_dom.
        rewrite Hcl, Hns. intros [[[? [=]]|[? [=]]] _].
      * apply map_lookup_filter_None_2. by left.
Qed.

Lemma merge_all_lookup ns offers : ∀ cl k,
  merge_all ns cl offers !! k
  = match cl !! k with
    | Some v => Some v
    | None => match ns !! k with
              | Some _ => None
              | None => earliest k offers
              end
    end.
Proof.
  induction offers as [|mc offers IH]; intros cl k; simpl.
  - destruct (cl !! k); [done|]. by destruct (ns !! k).
  - unfold merge_all in *. simpl. rewrite IH, merged_lookup.
    destruct (cl !! k); [done|]. destruct (ns !! k); [done|]. by destruct (mc !! k).
Qed.

Lemma merge_all_app ns cl offers1 offers2 :
  merge_all ns cl (offers1 ++ offers2) = merge_all ns (merge_all ns cl offers1) offers2.
Proof. unfold merge_all. apply foldl_app. Qed.

Lemma diagnostics_cons imp sm mods :
  diagnostics imp (sm :: mods) = (diagnostics imp [sm] ++ diagnostics imp mods)%list.
Proof. unfold diagnostics. simpl. by destruct (failure imp sm) as [e|]; [destruct (is_Exception e)|]. Qed.

Section Loading.
Variable env : environ.
Variable imp : importer.
Variable suffix : string.

Lemma import_submodule_run sm st :
  ∃ st1, import_submodule imp sm st = (import_outcome imp sm, st1)
    ∧ heap st1 = heap st ∧ stderr st1 = stderr st.
Proof.
  unfold import_submodule, import_outcome.
  destruct (version_lt_3_10 imp && sm_zipimporter sm).
  - by eexists.
  - unfold bind, lift. destruct (sm_module_from_spec sm); by eexists.
Qed.

Lemma load_module_run classes namespace module module_name st :
  ∃ st1, load_module suffix classes namespace module module_name st = (Ok tt, st1)
    ∧ heap st1 = <[classes := merged (dict_at st classes) (dict_at st namespace)
                                (module_classes suffix module module_name)]> (heap st)
    ∧ stderr st1 = stderr st.
Proof. by eexists. Qed.

(** One iteration of the loop: its outcome, the store and the output. *)
Lemma scan_step_run classes namespace sm st :
  ∃ st1,
    scan_step imp suffix classes namespace sm st
    = (match failure imp sm with
       | Some e => if is_Exception e then Ok tt else Raise e
       | None => Ok tt
       end, st1)
    ∧ heap st1 = match offered imp suffix sm with
                 | Some mc => <[classes := merged (dict_at st classes) (dict_at st namespace) mc]>
                                (heap st)
                 | None => heap st
                 end
    ∧ stderr st1 = (stderr st ++ diagnostics imp [sm])%list.
Proof.
  unfold scan_step, failure, offered, diagnostics, failure. simpl.
  destruct (re_match_private (sm_name sm)).
  { eexists. split; [reflexivity|]. by rewrite app_nil_r. }
  destruct (import_submodule_run sm st) as (st1 & Hrun & Hheap & Herr).
  unfold bind at 1. unfold try_except, bind at 1. rewrite Hrun.
  destruct (import_outcome imp sm) as [module|e].
  - unfold ret.
    destruct (load_module_run classes namespace module (sm_name sm) st1)
      as (st2 & Hl & Hh2 & He2).
    exists st2. split; [done|]. unfold dict_at in *. rewrite Hh2, He2, Hheap, Herr.
    by rewrite app_nil_r.
  - destruct (is_Exception e).
    + eexists. split; [reflexivity|]. simpl. by rewrite Hheap, Herr.
    + exists st1. by rewrite Hheap, Herr, app_nil_r.
Qed.

Lemma scan_inv classes namespace mods : ∀ st r st',
  classes ≠ namespace →
  classes < length (heap st) →
  scan imp suffix classes namespace mods st = (r, st') →
  match r with
  | Ok _ =>
      heap st' = <[classes := merge_all (dict_at st namespace) (dict_at st classes)
                                (omap (offered imp suffix) mods)]> (heap st)
      ∧ stderr st' = (stderr st ++ diagnostics imp mods)%list
  | Raise e => ∃ sm, sm ∈ mods ∧ failure imp sm = Some e ∧ is_Exception e = false
  end.
Proof.
  induction mods as [|sm mods IH]; intros st r st' Hne Hlt.
  - simpl. intros [= <- <-]. split; [|by rewrite app_nil_r].
    symmetry. apply list_insert_id. unfold dict_at.
    destruct (lookup_lt_is_Some_2 (heap st) classes Hlt) as [d Hd]. by rewrite Hd.
  - cbn [scan]. unfold bind at 1.
    destruct (scan_step_run classes namespace sm st) as (st1 & Hstep & Hheap & Herr).
    rewrite Hstep.
    assert (Hcont : ∀ st1,
      heap st1 = match offered imp suffix sm with
                 | Some mc => <[classes := merged (dict_at st classes) (dict_at st namespace) mc]>
                                (heap st)
                 | None => heap st
                 end →
      stderr st1 = (stderr st ++ diagnostics imp [sm])%list →
      scan imp suffix classes namespace mods st1 = (r, st') →
      match r with
      | Ok _ =>
          heap st' = <[classes := merge_all (dict_at st namespace) (dict_at st classes)
                                    (omap (offered imp suffix) (sm :: mods))]> (heap st)
          ∧ stderr st' = (stderr st ++ diagnostics imp (sm :: mods))%list
      | Raise e => ∃ sm', sm' ∈ sm :: mods ∧ failure imp sm' = Some e ∧ is_Exception e = false
      end).
    { clear st1 Hstep Hheap Herr. intros st1 Hheap Herr Hscan.
      assert (Hlt1 : classes < length (heap st1)).
      { rewrite Hheap. destruct (offered imp suffix sm); by rewrite ?length_insert. }
      specialize (IH st1 r st' Hne Hlt1 Hscan). destruct r as [[]|e].
      - destruct IH as [IHh IHe]. rewrite diagnostics_cons, app_assoc, <- Herr. split; [|done].
        rewrite IHh. simpl. unfold dict_at. rewrite Hheap.
        destruct (offered imp suffix sm) as [mc|]; [|done].
        rewrite list_lookup_insert_ne, list_lookup_insert_eq, list_insert_insert_eq by done.
        done.
      - destruct IH as (sm' & Hin & Hf & He). exists sm'. split; [|done].
        by apply list_elem_of_further. }
    destruct (failure imp sm) as [e|] eqn:Hfail; [destruct (is_Exception e) eqn:Hexc|].
    + cbv beta iota. by apply Hcont.
    + intros [= <- <-]. exists sm. split; [apply list_elem_of_here|done].
    + cbv beta iota. by apply Hcont.
Qed.

(** When no failure escapes the handler, the scan runs to its end. *)
Lemma scan_run classes namespace mods st :
  classes ≠ namespace →
  classes < length (heap st) →
  (∀ sm e, sm ∈ mods → failure imp sm = Some e → is_Exception e = true) →
  ∃ st', scan imp suffix classes namespace mods st = (Ok tt, st').
Proof.
  intros Hne Hlt Hall.
  destruct (scan imp suffix classes namespace mods st) as [[[]|e] st'] eqn:Hscan.
  - by eexists.
  - destruct (scan_inv classes namespace mods st _ _ Hne Hlt Hscan) as (sm & Hin & Hf & He).
    rewrite (Hall sm e Hin Hf) in He. discriminate He.
Qed.

Lemma iter_modules_run name st :
  iter_modules imp name st
  = (match import_module imp (PACKAGE_NAME ++ "." ++ name) with
     | Raise e => if is_ModuleNotFoundError e then Ok (listed imp name) else Raise e
     | Ok _ => Ok (listed imp name)
     end, st).
Proof.
  unfold iter_modules, listed, suppress, bind, lift, ret.
  destruct (import_module imp _) as [pkg_path|e]; [done|].
  by destruct (is_ModuleNotFoundError e).
Qed.

Lemma compat_run name classes namespace st :
  ∃ st1,
    compat env imp suffix name classes namespace st
    = (match compat_outcome env imp name with
       | Raise e => if is_FileNotFoundError e then Ok tt else Raise e
       | Ok _ => Ok tt
       end, st1)
    ∧ heap st1 = match compat_offered env imp suffix name with
                 | Some mc => <[classes := merged (dict_at st classes) (dict_at st namespace) mc]>
                                (heap st)
                 | None => heap st
                 end
    ∧ stderr st1 = stderr st.
Proof.
  unfold compat, compat_offered, compat_outcome, suppress, bind, lift, set_sys_modules, modify.
  destruct (exec_file_location imp name _) as [plugins|e].
  - by eexists.
  - destruct (is_FileNotFoundError e); by eexists.
Qed.

Lemma dict_at_heap st h r :
  heap st = h → dict_at st r = default ∅ (h !! r).
Proof. by intros <-. Qed.

(** The store once the loop and the legacy package are through. *)
Lemma scan_compat_inv name classes namespace st st1 st2 :
  classes ≠ namespace →
  classes < length (heap st) →
  scan imp suffix classes namespace (listed imp name) st = (Ok tt, st1) →
  (compat env imp suffix name classes namespace st1).2 = st2 →
  heap st2 = <[classes := merge_all (dict_at st namespace) (dict_at st classes)
                            (scan_order env imp suffix name)]> (heap st)
  ∧ stderr st2 = (stderr st ++ diagnostics imp (listed imp name))%list.
Proof.
  intros Hne Hlt Hscan Hcompat.
  destruct (scan_inv classes namespace _ _ _ _ Hne Hlt Hscan) as [Hh1 He1].
  destruct (compat_run name classes namespace st1) as (st2' & Hc & Hh2 & He2).
  rewrite Hc in Hcompat. simpl in Hcompat. subst st2'.
  split; [|by rewrite He2].
  assert (Hcl : dict_at st1 classes
                = merge_all (dict_at st namespace) (dict_at st classes)
                    (omap (offered imp suffix) (listed imp name))).
  { rewrite (dict_at_heap st1 _ classes Hh1). by rewrite list_lookup_insert_eq. }
  assert (Hns : dict_at st1 namespace = dict_at st namespace).
  { rewrite (dict_at_heap st1 _ namespace Hh1). by rewrite list_lookup_insert_ne. }
  rewrite Hh2. unfold scan_order. rewrite merge_all_app.
  destruct (compat_offered env imp suffix name) as [mc|]; simpl.
  - rewrite Hcl, Hns, Hh1. by rewrite list_insert_insert_eq.
  - by rewrite Hh1.
Qed.

Lemma load_plugins_from_inv name classes namespace st r st' :
  classes ≠ namespace →
  classes < length (heap st) →
  load_plugins_from env imp suffix name classes namespace st = (r, st') →
  match r with
  | Ok c =>
      c = classes
      ∧ stderr st' = (stderr st ++ diagnostics imp (listed imp name))%list
      ∧ heap st'
        = <[namespace := merge_all (dict_at st namespace) (dict_at st classes)
                           (scan_order env imp suffix name) ∪ dict_at st namespace]>
            (<[classes := merge_all (dict_at st namespace) (dict_at st classes)
                            (scan_order env imp suffix name)]> (heap st))
  | Raise e => escapes env imp name e
  end.
Proof.
  intros Hne Hlt. unfold load_plugins_from. unfold bind at 1.
  rewrite iter_modules_run.
  assert (Hmods : ∀ st0,
    (let! _ := scan imp suffix classes namespace (listed imp name) in
     let! _ := compat env imp suffix name classes namespace in
     let! cl := deref classes in
     let! ns := deref namespace in
     let! _ := assign namespace (cl ∪ ns) in ret classes) st = (r, st0) →
    st0 = st' →
    match r with
    | Ok c =>
        c = classes
        ∧ stderr st' = (stderr st ++ diagnostics imp (listed imp name))%list
        ∧ heap st'
          = <[namespace := merge_all (dict_at st namespace) (dict_at st classes)
                             (scan_order env imp suffix name) ∪ dict_at st namespace]>
              (<[classes := merge_all (dict_at st namespace) (dict_at st classes)
                              (scan_order env imp suffix name)]> (heap st))
    | Raise e => escapes env imp name e
    end).
  { intros st0. unfold bind at 1.
    destruct (scan imp suffix classes namespace (listed imp name) st) as [[[]|e1] st1] eqn:Hscan.
    2: { intros [= <- <-] _. right. left.
         apply (scan_inv classes namespace _ _ _ _ Hne Hlt Hscan). }
    unfold bind at 1.
    destruct (scan_compat_inv name classes namespace st st1 _ Hne Hlt Hscan eq_refl)
      as [Hh2 He2].
    destruct (compat_run name classes namespace st1) as (st2 & Hc & _ & _).
    rewrite Hc in Hh2, He2 |- *. simpl in Hh2, He2.
    destruct (compat_outcome env imp name) as [plugins|e2] eqn:Hco;
      [|destruct (is_FileNotFoundError e2) eqn:Hfnf].
    3: { intros [= <- <-] _. right. by right. }
    all: unfold bind, deref, gets, assign, modify, ret; intros [= <- <-] <-; simpl;
      (split; [done|]); (split; [done|]);
      rewrite Hh2;
      rewrite list_lookup_insert_eq by done; rewrite list_lookup_insert_ne by done; done. }
  destruct (import_module imp _) as [pkg_path|e0] eqn:Himp;
    [|destruct (is_ModuleNotFoundError e0) eqn:Hmnf].
  - intros H. by apply (Hmods st').
  - intros H. by apply (Hmods st').
  - intros [= <- <-]. by left.
Qed.

Lemma lookup_snoc_empty (h : list (gmap string pyobj)) r :
  default ∅ ((h ++ [∅])%list !! r) = default ∅ (h !! r).
Proof.
  destruct (decide (r < length h)) as [Hlt|Hge].
  - by rewrite lookup_app_l.
  - rewrite (lookup_ge_None_2 h r) by lia. rewrite lookup_app_r by lia.
    by destruct (r - length h) as [|[|n]].
Qed.

Lemma insert_two_new (h : list (gmap string pyobj)) a b x y :
  <[S (length h) := y]> (<[length h := x]> ((h ++ [a]) ++ [b])%list) = (h ++ [x; y])%list.
Proof.
  rewrite <- app_assoc. simpl.
  rewrite (insert_app_r_alt h _ (length h)) by lia. rewrite Nat.sub_diag. simpl.
  rewrite (insert_app_r_alt h _ (S (length h))) by lia.
  by replace (S (length h) - length h) with 1 by lia.
Qed.

Lemma insert_one_new (h : list (gmap string pyobj)) r a x y :
  r < length h →
  <[r := y]> (<[length h := x]> (h ++ [a])%list) = (<[r := y]> h ++ [x])%list.
Proof.
  intros Hlt. rewrite (insert_app_r_alt h _ (length h)) by lia. rewrite Nat.sub_diag. simpl.
  by rewrite insert_app_l.
Qed.

(** Where [load_plugins] ends: it returns the reference of the new dict
    [classes], which holds the surviving candidates, with the store and
    the output as described, or it raises one of the escaping
    exceptions. *)
Lemma load_plugins_inv name namespace st r st' :
  load_plugins env imp suffix name namespace st = (r, st') →
  match r with
  | Ok c =>
      c = length (heap st)
      ∧ stderr st' = (stderr st ++ diagnostics imp (listed imp name))%list
      ∧ heap st' = store_after st namespace
                     (surviving env imp suffix name (caller_namespace st namespace))
  | Raise e => escapes env imp name e
  end.
Proof.
  unfold load_plugins. unfold bind at 1, new_dict at 1.
  set (st_a := {| heap := (heap st ++ [∅])%list;
                  sys_modules := sys_modules st; stderr := stderr st |}).
  set (st_b := {| heap := ((heap st ++ [∅]) ++ [∅])%list;
                  sys_modules := sys_modules st; stderr := stderr st |}).
  assert (Hfresh : ∀ ns0, ns0 = ∅ →
    load_plugins_from env imp suffix name (length (heap st)) (length (heap st_a)) st_b
    = (r, st') →
    match r with
    | Ok c =>
        c = length (heap st)
        ∧ stderr st' = (stderr st ++ diagnostics imp (listed imp name))%list
        ∧ heap st' = (heap st ++ [surviving env imp suffix name ns0;
                                  surviving env imp suffix name ns0])%list
    | Raise e => escapes env imp name e
    end).
  { intros ns0 -> Hrun. apply load_plugins_from_inv in Hrun.
    - destruct r as [c|e]; [|done]. destruct Hrun as (-> & Herr & Hheap).
      split; [done|]. split; [done|]. rewrite Hheap. unfold dict_at. simpl.
      rewrite length_app. simpl. rewrite Nat.add_1_r.
      rewrite (lookup_app_r (heap st ++ [∅])%list [∅] (S (length (heap st))))
        by (rewrite length_app; simpl; lia).
      rewrite (lookup_app_l (heap st ++ [∅])%list [∅] (length (heap st)))
        by (rewrite length_app; simpl; lia).
      rewrite (lookup_app_r (heap st) [∅] (length (heap st))) by lia.
      rewrite length_app, Nat.sub_diag. simpl. rewrite Nat.add_1_r, Nat.sub_diag. simpl.
      rewrite (right_id ∅ (∪)). apply insert_two_new.
    - simpl. rewrite length_app. simpl. lia.
    - simpl. rewrite !length_app. simpl. lia. }
  destruct namespace as [r0|]; simpl.
  - unfold bind at 1, bind at 1, deref at 1, gets at 1.
    change (default ∅ (heap st_a !! r0)) with (default ∅ ((heap st ++ [∅])%list !! r0)).
    rewrite lookup_snoc_empty. fold (dict_at st r0).
    destruct (decide (dict_at st r0 = ∅)) as [He|Hne].
    + unfold new_dict. fold st_b. intros Hrun. by apply (Hfresh _ He).
    + unfold ret. intros Hrun.
      assert (Hlt : r0 < length (heap st)).
      { apply lookup_lt_is_Some. unfold dict_at in Hne.
        destruct (heap st !! r0); [by eexists|done]. }
      apply load_plugins_from_inv in Hrun.
      * destruct r as [c|e]; [|done]. destruct Hrun as (-> & Herr & Hheap).
        split; [done|]. split; [done|]. rewrite Hheap. unfold dict_at. simpl.
        rewrite !lookup_snoc_empty.
        rewrite (lookup_ge_None_2 (heap st) (length (heap st))) by lia. simpl.
        by apply insert_one_new.
      * lia.
      * simpl. rewrite length_app. simpl. lia.
  - unfold bind at 1, new_dict at 1. fold st_b. intros Hrun. by apply (Hfresh ∅).
Qed.

End Loading.

(** ** The registry: [load_plugins] *)

Lemma surviving_lookup env imp suffix name ns k :
  surviving env imp suffix name ns !! k
  = match ns !! k with
    | Some _ => None
    | None => earliest k (scan_order env imp suffix name)
    end.
Proof. unfold surviving. by rewrite merge_all_lookup, lookup_empty. Qed.

Lemma store_after_classes st namespace cl :
  default ∅ (store_after st namespace cl !! length (heap st)) = cl.
Proof.
  unfold store_after.
  destruct namespace as [r|]; [destruct (decide (dict_at st r = ∅))|].
  1,3: rewrite lookup_app_r by lia; by rewrite Nat.sub_diag.
  rewrite lookup_app_r by (rewrite length_insert; lia).
  by rewrite length_insert, Nat.sub_diag.
Qed.

Lemma store_after_namespace st r cl :
  dict_at st r ≠ ∅ →
  r < length (heap st)
  ∧ default ∅ (store_after st (Some r) cl !! r) = cl ∪ dict_at st r
  ∧ ∀ r', r' ≠ r → r' < length (heap st) →
      store_after st (Some r) cl !! r' = heap st !! r'.
Proof.
  intros Hne. unfold store_after. rewrite decide_False by done.
  assert (Hlt : r < length (heap st)).
  { apply lookup_lt_is_Some. unfold dict_at in Hne.
    destruct (heap st !! r); [by eexists|done]. }
  split; [done|]. split.
  - rewrite lookup_app_l by (rewrite length_insert; lia).
    by rewrite list_lookup_insert_eq.
  - intros r' Hr' Hlt'. rewrite lookup_app_l by (rewrite length_insert; lia).
    by rewrite list_lookup_insert_ne.
Qed.

(** C1. First registration wins. When [load_plugins] returns, the
    returned registry binds a name to the earliest offer of that name in
    the scan order, whatever that order is, unless the caller's namespace
    has the name, in which case the registry does not take it; an entry
    of the caller's namespace is still there afterwards, and the
    namespace binds every name to its pre-existing entry, else to the
    earliest offer. Nothing is printed for a dropped candidate: the
    output grows by the import diagnostics only. At each [load_module],
    a name bound in the registry or in the namespace leaves the registry
    as it was at that name. *)
Theorem first_registration_wins env imp suffix name namespace st c st' k :
  load_plugins env imp suffix name namespace st = (Ok c, st') →
  dict_at st' c !! k
  = match caller_namespace st namespace !! k with
    | Some _ => None
    | None => earliest k (scan_order env imp suffix name)
    end
  ∧ (∀ r v, namespace = Some r → dict_at st r !! k = Some v → dict_at st' r !! k = Some v)
  ∧ (∀ r, namespace = Some r → dict_at st r ≠ ∅ →
       dict_at st' r !! k = first_wins k (dict_at st r) (scan_order env imp suffix name))
  ∧ stderr st' = (stderr st ++ diagnostics imp (listed imp name))%list
  ∧ (∀ (cl ns mc : gmap string pyobj) v,
       cl !! k = Some v ∨ ns !! k = Some v → merged cl ns mc !! k = cl !! k).
Proof.
  intros Hrun. apply load_plugins_inv in Hrun as (-> & Herr & Hheap).
  assert (Hns : ∀ r, namespace = Some r → dict_at st r ≠ ∅ →
            dict_at st' r !! k = first_wins k (dict_at st r) (scan_order env imp suffix name)).
  { intros r -> Hne. unfold dict_at at 1. rewrite Hheap. unfold caller_namespace.
    destruct (store_after_namespace st r
                (surviving env imp suffix name (dict_at st r)) Hne) as (_ & -> & _).
    rewrite lookup_union, surviving_lookup. unfold first_wins.
    destruct (dict_at st r !! k); [done|]. by rewrite (right_id None _). }
  split; [|split; [|split; [done|split; [done|]]]].
  - unfold dict_at at 1. by rewrite Hheap, store_after_classes, surviving_lookup.
  - intros r v Hr Hk. rewrite (Hns r Hr).
    + unfold first_wins. by rewrite Hk.
    + intros He. rewrite He in Hk. by rewrite lookup_empty in Hk.
  - intros cl ns mc v Hb. rewrite merged_lookup.
    destruct (cl !! k); [done|]. destruct Hb as [Hb|Hb]; [done|]. by rewrite Hb.
Qed.

Lemma first_registration_wins_witness :
  dict_at (load_plugins home_env two_roots "IE" "extractor" (Some 0) builtin_store).2 1
    !! "FooIE" = Some (PyClass FooIE)
  ∧ dict_at (load_plugins home_env two_roots "IE" "extractor" (Some 0) builtin_store).2 0
      !! "YoutubeIE" = Some (PyClass YoutubeIE).
Proof.
  assert (Hrun : load_plugins home_env two_roots "IE" "extractor" (Some 0) builtin_store
                 = (Ok 1, (load_plugins home_env two_roots "IE" "extractor" (Some 0)
                             builtin_store).2))
    by (vm_compute; reflexivity).
  split.
  - destruct (first_registration_wins _ _ _ _ _ _ _ _ "FooIE" Hrun) as (H & _).
    rewrite H. vm_compute. reflexivity.
  - destruct (first_registration_wins _ _ _ _ _ _ _ _ "YoutubeIE" Hrun) as (_ & H & _).
    apply (H 0); reflexivity.
Defined.

(** C5, as amended. For a call with a non-empty caller-supplied
    namespace that returns, the value returned is a new dict, distinct
    from the namespace, that holds the surviving candidates and none of
    the pre-existing names; the caller's namespace is updated in place
    to its pre-existing entries together with the surviving candidates,
    and no other dict of the store changes. *)
Theorem load_plugins_returns_classes env imp suffix name r st c st' :
  dict_at st r ≠ ∅ →
  load_plugins env imp suffix name (Some r) st = (Ok c, st') →
  c = length (heap st)
  ∧ c ≠ r
  ∧ dict_at st' c = surviving env imp suffix name (dict_at st r)
  ∧ dom (dict_at st' c) ## dom (dict_at st r)
  ∧ dict_at st' r = dict_at st' c ∪ dict_at st r
  ∧ ∀ r', r' ≠ r → r' < length (heap st) → heap st' !! r' = heap st !! r'.
Proof.
  intros Hne Hrun. apply load_plugins_inv in Hrun as (-> & _ & Hheap).
  unfold caller_namespace in Hheap.
  destruct (store_after_namespace st r (surviving env imp suffix name (dict_at st r)) Hne)
    as (Hlt & Hr & Hother).
  assert (Hc : dict_at st' (length (heap st)) = surviving env imp suffix name (dict_at st r)).
  { unfold dict_at at 1. by rewrite Hheap, store_after_classes. }
  split; [done|]. split; [lia|]. split; [done|]. split; [|split].
  - rewrite Hc. apply elem_of_disjoint. intros k [v Hv]%elem_of_dom [w Hw]%elem_of_dom.
    rewrite surviving_lookup, Hw in Hv. discriminate Hv.
  - rewrite Hc. unfold dict_at at 1. by rewrite Hheap, Hr.
  - intros r' Hr' Hlt'. rewrite Hheap. by apply Hother.
Qed.

Lemma load_plugins_returns_classes_witness :
  ∃ st',
    load_plugins home_env two_roots "IE" "extractor" (Some 0) builtin_store = (Ok 1, st')
    ∧ dict_at st' 0
      = dict_at st' 1 ∪ {[ "YoutubeIE" := PyClass YoutubeIE ]}
    ∧ dict_at st' 1 !! "YoutubeIE" = None
    ∧ dict_at st' 1 !! "LegacyIE" = Some (PyClass LegacyIE).
Proof.
  exists (load_plugins home_env two_roots "IE" "extractor" (Some 0) builtin_store).2.
  assert (Hrun : load_plugins home_env two_roots "IE" "extractor" (Some 0) builtin_store
                 = (Ok 1, (load_plugins home_env two_roots "IE" "extractor" (Some 0)
                             builtin_store).2))
    by (vm_compute; reflexivity).
  assert (Hne : dict_at builtin_store 0 ≠ ∅).
  { intros He. apply (f_equal (λ m : gmap string pyobj, m !! "YoutubeIE")) in He.
    vm_compute in He. discriminate He. }
  destruct (load_plugins_returns_classes _ _ _ _ _ _ _ _ Hne Hrun)
    as (_ & _ & Hc & _ & Hr & _).
  split; [exact Hrun|]. split; [exact Hr|]. rewrite Hc. split; vm_compute; reflexivity.
Defined.

(** C5, as the specification words it, fails: with the namespace of
    built-in classes at reference 0, the call returns reference 1, a
    dict that is not the namespace and lacks its entries. *)
Lemma returns_namespace_counterexample :
  ¬ returns_namespace home_env two_roots "IE" "extractor" 0 builtin_store.
Proof.
  intros H.
  destruct (H 1 (load_plugins home_env two_roots "IE" "extractor" (Some 0) builtin_store).2)
    as [Hc _].
  - vm_compute. reflexivity.
  - discriminate Hc.
Qed.




(** * Further properties of [plugins.py] *)

(** ** Dotted names: [partition] and the watched set *)

Lemma split_nonempty sep s : Str.split sep s ≠ [].
Proof.
  destruct s as [|c s]; simpl; [done|].
  destruct (Ascii.eqb c sep); [done|]. by destruct (Str.split sep s).
Qed.

Lemma join_cons sep x y l : Str.join sep (x :: y :: l) = x ++ sep ++ Str.join sep (y :: l).
Proof. reflexivity. Qed.

Lemma append_assoc (a b c : string) : (a ++ b) ++ c = a ++ b ++ c.
Proof. induction a as [|x a IH]; [done|]. by rewrite !append_cons, IH. Qed.

Lemma append_nil_r (a : string) : a ++ "" = a.
Proof. induction a as [|x a IH]; [done|]. by rewrite append_cons, IH. Qed.

(** Splitting at dots and joining with dots gives the string back. *)
Lemma join_split s : Str.join "." (Str.split "."%char s) = s.
Proof.
  induction s as [|c s IH]; [done|]. simpl.
  pose proof (split_nonempty "."%char s) as Hne.
  destruct (Ascii.eqb_spec c "."%char) as [->|Hc].
  - destruct (Str.split "."%char s) as [|w ws]; [done|].
    rewrite join_cons, IH. reflexivity.
  - destruct (Str.split "."%char s) as [|w ws]; [done|].
    destruct ws as [|w' ws]; simpl in *; [by rewrite IH|].
    rewrite <- IH. reflexivity.
Qed.

Lemma join_merge a b l :
  Str.join "." (Str.join "." [a; b] :: l) = Str.join "." (a :: b :: l).
Proof.
  destruct l as [|c l]; [done|].
  rewrite !join_cons. change (Str.join "." [a; b]) with (a ++ "." ++ b).
  by rewrite !append_assoc.
Qed.

Lemma elem_of_accumulate_from l : ∀ acc x,
  x ∈ accumulate_from (λ a b, Str.join "." [a; b]) acc l
  ↔ ∃ pre suf, pre ≠ [] ∧ l = (pre ++ suf)%list ∧ x = Str.join "." (acc :: pre).
Proof.
  induction l as [|y l IH]; intros acc x; simpl.
  - split; [by intros ?%elem_of_nil|]. intros (pre & suf & Hne & Hl & _).
    by destruct pre.
  - rewrite elem_of_cons, IH. split.
    + intros [->|(pre & suf & Hne & -> & ->)].
      * by exists [y], l.
      * exists (y :: pre), suf. split; [done|]. split; [done|]. apply join_merge.
    + intros (pre & suf & Hne & Hl & ->). destruct pre as [|p pre]; [done|].
      injection Hl as <- ->. destruct pre as [|p' pre]; [by left|]. right.
      exists (p' :: pre), suf. split; [done|]. split; [done|]. symmetry. apply join_merge.
Qed.

Lemma last_accumulate_from l : ∀ acc,
  last (acc :: accumulate_from (λ a b, Str.join "." [a; b]) acc l)
  = Some (Str.join "." (acc :: l)).
Proof.
  induction l as [|y l IH]; intros acc; [done|].
  cbn [accumulate_from]. rewrite last_cons_cons, IH. f_equal. apply join_merge.
Qed.

Lemma elem_of_partition name x :
  x ∈ partition name
  ↔ ∃ pre suf, pre ≠ [] ∧ Str.split "."%char name = (pre ++ suf)%list
      ∧ x = Str.join "." pre.
Proof.
  unfold partition. pose proof (split_nonempty "."%char name) as Hne.
  destruct (Str.split "."%char name) as [|w ws]; [done|]. simpl.
  rewrite elem_of_cons, elem_of_accumulate_from. split.
  - intros [->|(pre & suf & Hp & -> & ->)].
    + by exists [w], ws.
    + by exists (w :: pre), suf.
  - intros (pre & suf & Hp & Hl & ->). destruct pre as [|p pre]; [done|].
    injection Hl as <- ->. destruct pre as [|p' pre]; [by left|]. right.
    by exists (p' :: pre), suf.
Qed.

Lemma last_partition name : last (partition name) = Some name.
Proof.
  unfold partition. pose proof (split_nonempty "."%char name) as Hne.
  pose proof (join_split name) as Hjs.
  destruct (Str.split "."%char name) as [|w ws]; [done|]. simpl.
  by rewrite last_accumulate_from, Hjs.
Qed.

Lemma partition_self name : name ∈ partition name.
Proof.
  pose proof (last_partition name) as Hl.
  apply last_Some in Hl as [l' ->]. apply elem_of_app. right. apply list_elem_of_here.
Qed.

(** X1. [partition] yields the dotted ancestors of a name and the name
    itself: its elements are the non-empty prefixes of the list of
    segments, joined by dots again; the name is among them, as the last
    one. *)
Theorem partition_ancestors name x :
  (x ∈ partition name
   ↔ ∃ pre suf, pre ≠ [] ∧ Str.split "."%char name = (pre ++ suf)%list
       ∧ x = Str.join "." pre)
  ∧ name ∈ partition name
  ∧ last (partition name) = Some name.
Proof.
  split; [apply elem_of_partition|]. split; [apply partition_self|apply last_partition].
Qed.

Lemma partition_ancestors_witness :
  "yt_dlp_plugins" ∈ partition "yt_dlp_plugins.extractor".
Proof.
  apply (partition_ancestors "yt_dlp_plugins.extractor" "yt_dlp_plugins").
  by exists ["yt_dlp_plugins"], ["extractor"].
Defined.

Lemma elem_of_foldl_union (pkgs : list string) : ∀ (acc : gset string) x,
  x ∈ foldl (λ acc name, acc ∪ list_to_set (partition name)) acc pkgs
  ↔ x ∈ acc ∨ ∃ name, name ∈ pkgs ∧ x ∈ partition name.
Proof.
  induction pkgs as [|p pkgs IH]; intros acc x; simpl.
  - split; [by left|]. intros [?|(name & ?%elem_of_nil & _)]; done.
  - rewrite IH, elem_of_union, elem_of_list_to_set. split.
    + intros [[?|?]|(name & Hin & Hx)]; [by left|right..].
      * exists p. split; [apply list_elem_of_here|done].
      * exists name. split; [by apply list_elem_of_further|done].
    + intros [?|(name & Hin & Hx)]; [by left; left|].
      apply elem_of_cons in Hin as [->|Hin]; [by left; right|]. right. by exists name.
Qed.

Lemma elem_of_packages_init pkgs x :
  x ∈ packages (PluginFinder_init pkgs) ↔ ∃ name, name ∈ pkgs ∧ x ∈ partition name.
Proof. unfold PluginFinder_init. simpl. rewrite elem_of_foldl_union. set_solver. Qed.

(** X2. A new finder watches the given names and their dotted ancestors,
    and nothing else, and starts with an empty archive cache: so the
    parent package [yt_dlp_plugins] is watched along with its two
    subpackages. *)
Theorem PluginFinder_init_watches pkgs x :
  (x ∈ packages (PluginFinder_init pkgs) ↔ ∃ name, name ∈ pkgs ∧ x ∈ partition name)
  ∧ (x ∈ pkgs → x ∈ packages (PluginFinder_init pkgs))
  ∧ _zip_content_cache (PluginFinder_init pkgs) = ∅.
Proof.
  split; [apply elem_of_packages_init|]. split; [|done].
  intros Hin. apply elem_of_packages_init. exists x. split; [done|apply partition_self].
Qed.

Lemma PluginFinder_init_watches_witness :
  "yt_dlp_plugins.postprocessor"
    ∈ packages (PluginFinder_init ["yt_dlp_plugins.extractor"; "yt_dlp_plugins.postprocessor"]).
Proof.
  apply (PluginFinder_init_watches
           ["yt_dlp_plugins.extractor"; "yt_dlp_plugins.postprocessor"]
           "yt_dlp_plugins.postprocessor").
  apply list_elem_of_further, list_elem_of_here.
Defined.

(** X3. [invalidate_caches] empties the archive cache, keeps the watched
    set, and deletes from [sys.modules] the watched packages only, that
    is the given names and their dotted ancestors: any other module,
    such as a plugin submodule that was imported, keeps its entry. *)
Theorem invalidate_caches_keeps_submodules pkgs cache (sys : gset string) m :
  _zip_content_cache
    (invalidate_caches {| packages := packages (PluginFinder_init pkgs);
                          _zip_content_cache := cache |} sys).1 = ∅
  ∧ packages
      (invalidate_caches {| packages := packages (PluginFinder_init pkgs);
                            _zip_content_cache := cache |} sys).1
    = packages (PluginFinder_init pkgs)
  ∧ (m ∈ (invalidate_caches {| packages := packages (PluginFinder_init pkgs);
                               _zip_content_cache := cache |} sys).2
     ↔ m ∈ sys ∧ ¬ ∃ name, name ∈ pkgs ∧ m ∈ partition name).
Proof.
  split; [done|]. split; [done|]. unfold invalidate_caches. cbn [snd packages].
  by rewrite elem_of_difference, elem_of_packages_init.
Qed.

Lemma invalidate_caches_keeps_submodules_witness :
  "yt_dlp_plugins.extractor.foo"
    ∈ (invalidate_caches (self cached_finder)
         {[ "yt_dlp_plugins.extractor"; "yt_dlp_plugins.extractor.foo" ]}).2.
Proof.
  apply (invalidate_caches_keeps_submodules
           ["yt_dlp_plugins.extractor"; "yt_dlp_plugins.postprocessor"]
           (_zip_content_cache (self cached_finder))
           {[ "yt_dlp_plugins.extractor"; "yt_dlp_plugins.extractor.foo" ]}
           "yt_dlp_plugins.extractor.foo").
  split; [apply elem_of_union_r, elem_of_singleton; reflexivity|].
  intros (name & Hin & Hm).
  assert (Hno : bool_decide
                  ("yt_dlp_plugins.extractor.foo"
                     ∈ (partition "yt_dlp_plugins.extractor"
                        ++ partition "yt_dlp_plugins.postprocessor")%list) = false)
    by (vm_compute; reflexivity).
  apply bool_decide_eq_false in Hno. apply Hno. apply elem_of_app.
  apply elem_of_cons in Hin as [->|Hin]; [by left|].
  apply elem_of_cons in Hin as [->|Hin]; [by right|]. by apply elem_of_nil in Hin.
Defined.

(** ** The containment test of [zip_has_dir] *)

Lemma elem_of_parents (x p : Path) :
  x ∈ Pathlib.parents p
  ↔ ∃ rest, rest ≠ [] ∧ p = (x ++ rest)%list ∧ (Pathlib.is_absolute p = true → x ≠ []).
Proof.
  unfold Pathlib.parents. rewrite list_elem_of_fmap. split.
  - intros (n & -> & Hn). rewrite elem_of_reverse, elem_of_seq in Hn.
    exists (drop n p). split; [|split].
    + intros Hd. apply (f_equal length) in Hd. rewrite length_drop in Hd. simpl in Hd.
      destruct (Pathlib.is_absolute p); lia.
    + by rewrite take_drop.
    + intros Ha. rewrite Ha in Hn. destruct p as [|c p]; [done|].
      destruct n; [lia|done].
  - intros (rest & Hr & -> & Ha). exists (length x). split.
    + by rewrite take_app_length.
    + rewrite elem_of_reverse, elem_of_seq, length_app.
      assert (0 < length rest) by (destruct rest; [done|simpl; lia]).
      destruct (Pathlib.is_absolute (x ++ rest)) eqn:E; [|lia].
      specialize (Ha eq_refl). destruct x; [done|simpl; lia].
Qed.

(** X4. The containment test: for a cached archive, [zip_has_dir]
    answers without touching the state, and answers [True] exactly when
    some cached entry lies strictly below [path] (its parts are those of
    [path] followed by at least one more), the root of an absolute entry
    not counting as [Path('.')]. A lone directory entry for [path] itself
    does not make the archive contain it. *)
Theorem zip_has_dir_containment fs archive path files st :
  cache_of st !! archive = Some files →
  ∃ b, zip_has_dir fs archive path st = (Ok b, st)
    ∧ (b = true
       ↔ ∃ file rest, file ∈ files ∧ rest ≠ [] ∧ file = (path ++ rest)%list
           ∧ (Pathlib.is_absolute file = true → path ≠ [])).
Proof.
  intros Hc. eexists. split; [by apply zip_has_dir_cached|].
  unfold has_directory. rewrite existsb_exists. split.
  - intros (file & Hin & Hb). apply bool_decide_eq_true in Hb.
    apply elem_of_parents in Hb as (rest & Hr & -> & Ha).
    apply list_elem_of_In in Hin. by exists (path ++ rest)%list, rest.
  - intros (file & rest & Hin & Hr & -> & Ha). exists (path ++ rest)%list.
    split; [by apply list_elem_of_In|]. apply bool_decide_eq_true.
    apply elem_of_parents. eauto.
Qed.

Lemma zip_has_dir_containment_witness :
  ∃ b, zip_has_dir empty_fs myplugins_zip ["yt_dlp_plugins"; "extractor"] cached_finder
       = (Ok b, cached_finder)
    ∧ b ≠ true.
Proof.
  destruct (zip_has_dir_containment empty_fs myplugins_zip ["yt_dlp_plugins"; "extractor"]
              [["yt_dlp_plugins"; "extractor"]] cached_finder) as (b & Hrun & Hb).
  - reflexivity.
  - exists b. split; [exact Hrun|].
    intros (file & rest & Hin & Hr & Heq & _)%Hb.
    apply list_elem_of_singleton in Hin. subst file.
    destruct rest; [done|discriminate Heq].
Defined.

(** ** The archive test of [search_locations] *)

Lemma substring_all s : substring 0 (String.length s) s = s.
Proof. induction s as [|c s IH]; [done|]. simpl. by rewrite IH. Qed.

Lemma substring_split s : ∀ n,
  (n ≤ String.length s)%nat →
  substring 0 n s ++ substring n (String.length s - n) s = s.
Proof.
  induction s as [|c s IH]; intros n Hn.
  - simpl in Hn. by replace n with 0 by lia.
  - destruct n as [|n].
    + change (substring 0 0 (String c s)) with "".
      rewrite Nat.sub_0_r. by rewrite substring_all.
    + simpl in *. rewrite append_cons. f_equal. apply IH. lia.
Qed.

Lemma length_substring s : ∀ n m,
  (n + m ≤ String.length s)%nat → String.length (substring n m s) = m.
Proof.
  induction s as [|c s IH]; intros n m Hn.
  - simpl in Hn. by replace n with 0 by lia; replace m with 0 by lia.
  - destruct n as [|n]; simpl in *.
    + destruct m as [|m]; [done|]. simpl. f_equal. apply (IH 0). lia.
    + apply IH. lia.
Qed.

Lemma rfind_dot_lt s i : Str.rfind_dot s = Some i → (i < String.length s)%nat.
Proof.
  revert i. induction s as [|c s IH]; intros i; simpl; [done|].
  destruct (Str.rfind_dot s) as [j|].
  - intros [= <-]. specialize (IH j eq_refl). lia.
  - destruct (Ascii.eqb c "."%char); [|done]. intros [= <-]. lia.
Qed.

(** Replacing the suffix of a name by itself gives the name back. *)
Lemma stem_suffix nm :
  substring 0 (String.length nm - String.length (Pathlib.suffix_of nm)) nm
  ++ Pathlib.suffix_of nm = nm.
Proof.
  unfold Pathlib.suffix_of.
  destruct (Str.rfind_dot nm) as [i|] eqn:Hi.
  - apply rfind_dot_lt in Hi.
    destruct (Nat.ltb 0 i && Nat.ltb i (String.length nm - 1)).
    + rewrite length_substring by lia.
      replace (String.length nm - (String.length nm - i)) with i by lia.
      apply substring_split. lia.
    + simpl. by rewrite Nat.sub_0_r, substring_all, append_nil_r.
  - simpl. by rewrite Nat.sub_0_r, substring_all, append_nil_r.
Qed.

Lemma name_last (p : Path) : Pathlib.name p ≠ "" → last p = Some (Pathlib.name p).
Proof.
  unfold Pathlib.name. destruct p as [|r [|c p]]; [intros H; by destruct H| |].
  - destruct (Pathlib.is_root r); [intros H; by destruct H|done].
  - destruct (last (r :: c :: p)); simpl; [done|intros H; by destruct H].
Qed.

Lemma with_suffix_own p :
  Pathlib.name p ≠ "" → Pathlib.with_suffix p (Pathlib.suffix_of (Pathlib.name p)) = p.
Proof.
  intros Hn. unfold Pathlib.with_suffix.
  apply String.eqb_neq in Hn as Hn'. rewrite Hn'. rewrite stem_suffix.
  apply name_last in Hn. clear Hn'. revert Hn. generalize (Pathlib.name p). intros nm Hn.
  apply last_Some in Hn as [l' ->].
  rewrite length_app. simpl. replace (length l' + 1 - 1) with (length l') by lia.
  by rewrite take_app_length.
Qed.

(** X5. A candidate that is itself a file whose name carries the suffix
    [.zip], [.egg] or [.whl] passes the archive test of
    [search_locations]: replacing its suffix by itself gives the path
    back, which is a file. *)
Theorem archive_file_passes_test fs path :
  is_file fs path = true →
  Pathlib.suffix_of (Pathlib.name path) ∈ archive_suffixes →
  archive_test fs path = true
  ∧ Pathlib.with_suffix path (Pathlib.suffix_of (Pathlib.name path)) = path.
Proof.
  intros Hf Hs.
  assert (Hn : Pathlib.name path ≠ "").
  { intros He. rewrite He in Hs. vm_compute in Hs.
    repeat (apply elem_of_cons in Hs as [Hs|Hs]; [discriminate Hs|]).
    by apply elem_of_nil in Hs. }
  split; [|by apply with_suffix_own].
  unfold archive_test. apply andb_true_iff. split.
  - apply negb_true_iff. by apply String.eqb_neq.
  - apply existsb_exists. exists (Pathlib.suffix_of (Pathlib.name path)).
    split; [by apply list_elem_of_In|]. by rewrite with_suffix_own.
Qed.

Lemma archive_file_passes_test_witness : archive_test (zip_fs []) myplugins_zip = true.
Proof.
  apply (archive_file_passes_test (zip_fs []) myplugins_zip).
  - reflexivity.
  - vm_compute. apply list_elem_of_here.
Defined.

(** ** Resolution: what [search_locations] does to the finder *)

Section Steps.
Variable fs : filesystem.

(** The five ways through one iteration of the loop. *)
Lemma search_step_cases parts locations path st :
  (is_dir fs (Pathlib.joinpath path parts) = true
   ∧ search_step fs parts locations path st
     = (Ok (locations ∪ {[Pathlib.str (Pathlib.joinpath path parts)]}), st))
  ∨ (is_dir fs (Pathlib.joinpath path parts) = false ∧ archive_test fs path = false
     ∧ search_step fs parts locations path st = (Ok locations, st))
  ∨ (is_dir fs (Pathlib.joinpath path parts) = false ∧ archive_test fs path = true
     ∧ ∃ files, cache_of st !! path = Some files
         ∧ search_step fs parts locations path st
           = (Ok (if has_directory files parts
                  then locations ∪ {[Pathlib.str (Pathlib.joinpath path parts)]}
                  else locations), st))
  ∨ (is_dir fs (Pathlib.joinpath path parts) = false ∧ archive_test fs path = true
     ∧ cache_of st !! path = None
     ∧ ∃ names st', zip_namelist fs path = Ok names
         ∧ search_step fs parts locations path st
           = (Ok (if has_directory (Pathlib.of_string <$> names) parts
                  then locations ∪ {[Pathlib.str (Pathlib.joinpath path parts)]}
                  else locations), st')
         ∧ zip_opened st' = (zip_opened st ++ [path])%list
         ∧ packages (self st') = packages (self st)
         ∧ cache_of st' = <[path := Pathlib.of_string <$> names]> (cache_of st))
  ∨ (is_dir fs (Pathlib.joinpath path parts) = false ∧ archive_test fs path = true
     ∧ cache_of st !! path = None
     ∧ ∃ e, zip_namelist fs path = Raise e
         ∧ search_step fs parts locations path st
           = (if is_FileNotFoundError e then Ok locations else Raise e, opened path st)).
Proof.
  unfold search_step, archive_test.
  destruct (is_dir fs _) eqn:Hd; [by left|]. right.
  destruct (_ && _) eqn:Ht; [|by left]. right.
  unfold suppress, bind.
  destruct (cache_of st !! path) as [files|] eqn:Hc.
  - left. split; [done|]. split; [done|]. exists files. split; [done|].
    rewrite (zip_has_dir_cached fs path parts files) by done.
    by destruct (has_directory files parts).
  - right. destruct (zip_namelist fs path) as [names|e] eqn:Hz.
    + left. split; [done|]. split; [done|]. split; [done|].
      rewrite (zip_has_dir_first fs path parts names) by done.
      eexists names, _. split; [done|]. split.
      * by destruct (has_directory _ parts).
      * done.
    + right. split; [done|]. split; [done|]. split; [done|]. exists e. split; [done|].
      rewrite (zip_has_dir_raises fs path parts e) by done.
      by destruct (is_FileNotFoundError e).
Qed.

(** What one iteration does to the finder and to the log. *)
Lemma search_step_trace parts locations path st :
  ∃ tr,
    zip_opened (search_step fs parts locations path st).2 = (zip_opened st ++ tr)%list
    ∧ ((tr = [] ∧ self (search_step fs parts locations path st).2 = self st)
       ∨ (tr = [path] ∧ cache_of st !! path = None ∧ archive_test fs path = true
          ∧ is_dir fs (Pathlib.joinpath path parts) = false
          ∧ packages (self (search_step fs parts locations path st).2) = packages (self st)
          ∧ ∀ a, a ≠ path →
              cache_of (search_step fs parts locations path st).2 !! a = cache_of st !! a)).
Proof.
  destruct (search_step_cases parts locations path st)
    as [[Hd ->]|[(Hd & Ht & ->)|[(Hd & Ht & files & Hc & ->)
       |[(Hd & Ht & Hc & names & st' & Hz & -> & Ho & Hp & Hc')
        |(Hd & Ht & Hc & e & Hz & ->)]]]]; simpl.
  1-3: exists []; rewrite app_nil_r; split; [done|by left].
  - exists [path]. split; [done|]. right. repeat split; try done.
    intros a Ha. rewrite Hc'. by rewrite lookup_insert_ne.
  - exists [path]. split; [done|]. right. done.
Qed.

Lemma search_loop_trace parts paths : ∀ locations st,
  NoDup paths →
  packages (self (search_loop fs parts locations paths st).2) = packages (self st)
  ∧ (∀ a files, cache_of st !! a = Some files →
       cache_of (search_loop fs parts locations paths st).2 !! a = Some files)
  ∧ ∃ tr,
      zip_opened (search_loop fs parts locations paths st).2 = (zip_opened st ++ tr)%list
      ∧ NoDup tr
      ∧ (∀ a, a ∈ tr →
           a ∈ paths ∧ cache_of st !! a = None ∧ archive_test fs a = true
           ∧ is_dir fs (Pathlib.joinpath a parts) = false)
      ∧ (∀ a, a ∉ tr →
           cache_of (search_loop fs parts locations paths st).2 !! a = cache_of st !! a).
Proof.
  induction paths as [|p paths IH]; intros locations st Hnd.
  - simpl. split; [done|]. split; [done|]. exists []. rewrite app_nil_r.
    split; [done|]. split; [constructor|]. split; [|done].
    intros a Ha. by apply elem_of_nil in Ha.
  - apply NoDup_cons in Hnd as [Hnp Hnd]. cbn [search_loop]. unfold bind.
    destruct (search_step_trace parts locations p st) as (tr1 & Ho1 & Hcase).
    pose proof (search_step_frame fs parts locations p st) as Hframe.
    destruct (search_step fs parts locations p st) as [[l1|e] st1] eqn:Hs; simpl in *.
    + destruct (IH l1 st1 Hnd) as (Hpk & Hmono & tr2 & Ho2 & Hnd2 & Hin2 & Hout2).
      assert (Hpk1 : packages (self st1) = packages (self st))
        by (destruct Hcase as [[_ ->]|(_ & _ & _ & _ & ? & _)]; done).
      assert (Hmono1 : ∀ a files, cache_of st !! a = Some files →
                                  cache_of st1 !! a = Some files).
      { intros a files Ha. destruct Hcase as [[_ Hself]|(_ & Hc & _ & _ & _ & Hother)].
        - unfold cache_of. by rewrite Hself.
        - rewrite Hother; [done|]. intros ->. by rewrite Hc in Ha. }
      split; [by rewrite Hpk|]. split; [by eauto|].
      exists (tr1 ++ tr2)%list. split; [by rewrite Ho2, Ho1, app_assoc|].
      assert (Hp2 : p ∉ tr2) by (intros H; by apply Hin2 in H as [? _]).
      split; [|split].
      * destruct Hcase as [[-> _]|(-> & _)]; [done|]. simpl. by constructor.
      * intros a Ha. apply elem_of_app in Ha as [Ha|Ha].
        -- destruct Hcase as [[-> _]|(-> & Hc & Ht & Hd & _)]; [by apply elem_of_nil in Ha|].
           apply list_elem_of_singleton in Ha as ->.
           split; [apply list_elem_of_here|done].
        -- destruct (Hin2 a Ha) as (Hap & Hc & Ht & Hd).
           split; [by apply list_elem_of_further|]. split; [|done].
           rewrite <- Hc. symmetry. apply Hframe. intros ->. done.
      * intros a Ha. apply not_elem_of_app in Ha as [Ha1 Ha2].
        rewrite Hout2 by done.
        destruct Hcase as [[_ Hself]|(-> & _ & _ & _ & _ & Hother)].
        -- unfold cache_of. by rewrite Hself.
        -- apply Hother. intros ->. apply Ha1, list_elem_of_here.
    + destruct Hcase as [[-> Hself]|(-> & Hc & Ht & Hd & Hpk & Hother)].
      * split; [by rewrite Hself|]. split; [unfold cache_of; by rewrite Hself|].
        exists []. split; [done|]. split; [constructor|]. split.
        -- intros a Ha. by apply elem_of_nil in Ha.
        -- intros a _. unfold cache_of. by rewrite Hself.
      * split; [done|]. split.
        { intros a files Ha. rewrite Hother; [done|]. intros ->. by rewrite Hc in Ha. }
        exists [p]. split; [done|]. split; [apply NoDup_singleton|]. split.
        -- intros a ->%list_elem_of_singleton. split; [apply list_elem_of_here|done].
        -- intros a Ha. apply Hother. intros ->. apply Ha, list_elem_of_here.
Qed.

(** An exception that leaves the loop was raised by the read of an
    archive candidate, and is not a [FileNotFoundError]. *)
Lemma search_loop_raises parts paths : ∀ locations st e st',
  search_loop fs parts locations paths st = (Raise e, st') →
  is_FileNotFoundError e = false
  ∧ ∃ p, p ∈ paths ∧ zip_namelist fs p = Raise e ∧ archive_test fs p = true
      ∧ is_dir fs (Pathlib.joinpath p parts) = false.
Proof.
  induction paths as [|p paths IH]; intros locations st e st'; [done|].
  cbn [search_loop]. unfold bind.
  destruct (search_step_cases parts locations p st)
    as [[Hd ->]|[(Hd & Ht & ->)|[(Hd & Ht & files & Hc & ->)
       |[(Hd & Ht & Hc & names & st1 & Hz & -> & _)
        |(Hd & Ht & Hc & e1 & Hz & ->)]]]].
  1-4: intros (Hf & q & Hq & H)%IH; split; [done|];
       exists q; split; [by apply list_elem_of_further|done].
  destruct (is_FileNotFoundError e1) eqn:Hfnf.
  - intros (Hf & q & Hq & H)%IH. split; [done|].
    exists q. split; [by apply list_elem_of_further|done].
  - intros [= <- <-]. split; [done|]. exists p. split; [apply list_elem_of_here|done].
Qed.

(** The locations of a loop that runs to its end. *)
Lemma search_loop_locations parts paths : ∀ locations st locations' st',
  search_loop fs parts locations paths st = (Ok locations', st') →
  locations ⊆ locations'
  ∧ (∀ p, p ∈ paths → is_dir fs (Pathlib.joinpath p parts) = true →
       Pathlib.str (Pathlib.joinpath p parts) ∈ locations')
  ∧ (∀ x, x ∈ locations' →
       x ∈ locations
       ∨ ∃ p, p ∈ paths ∧ x = Pathlib.str (Pathlib.joinpath p parts)
           ∧ (is_dir fs (Pathlib.joinpath p parts) = true ∨ archive_test fs p = true)).
Proof.
  induction paths as [|p paths IH]; intros locations st locations' st'.
  - simpl. intros [= <- <-]. split; [done|]. split; [by intros p ?%elem_of_nil|]. by left.
  - cbn [search_loop]. unfold bind.
    destruct (search_step fs parts locations p st) as [[l1|e] st1] eqn:Hs; [|done].
    intros (Hsub & Hdirs & Hfrom)%IH.
    assert (Hl1 : locations ⊆ l1
                  ∧ (is_dir fs (Pathlib.joinpath p parts) = true →
                     Pathlib.str (Pathlib.joinpath p parts) ∈ l1)
                  ∧ (∀ x, x ∈ l1 → x ∈ locations
                       ∨ x = Pathlib.str (Pathlib.joinpath p parts)
                         ∧ (is_dir fs (Pathlib.joinpath p parts) = true
                            ∨ archive_test fs p = true))).
    { destruct (search_step_cases parts locations p st)
        as [[Hd Heq]|[(Hd & Ht & Heq)|[(Hd & Ht & files & Hc & Heq)
           |[(Hd & Ht & Hc & names & st2 & Hz & Heq & _)
            |(Hd & Ht & Hc & e1 & Hz & Heq)]]]];
        rewrite Heq in Hs.
      - injection Hs as <- <-. set_solver.
      - injection Hs as <- <-. rewrite Hd. set_solver.
      - injection Hs as <- <-. rewrite Hd. destruct (has_directory _ _); set_solver.
      - injection Hs as <- <-. rewrite Hd. destruct (has_directory _ _); set_solver.
      - destruct (is_FileNotFoundError e1); [|done]. injection Hs as <- <-.
        rewrite Hd. set_solver. }
    destruct Hl1 as (Hsub1 & Hdir1 & Hfrom1). split; [set_solver|]. split.
    + intros q [->|Hq]%elem_of_cons Hd; [set_solver|by apply Hdirs].
    + intros x [Hx|(q & Hq & -> & Hq')]%Hfrom.
      * destruct (Hfrom1 x Hx) as [?|[-> H]]; [by left|]. right.
        exists p. split; [apply list_elem_of_here|done].
      * right. exists q. split; [by apply list_elem_of_further|done].
Qed.

(** Where no candidate passes the archive test, the loop is a pure
    scan for directories. *)
Lemma search_loop_directories parts paths : ∀ locations st,
  (∀ p, p ∈ paths →
        is_dir fs (Pathlib.joinpath p parts) = true ∨ archive_test fs p = false) →
  ∃ locations',
    search_loop fs parts locations paths st = (Ok locations', st)
    ∧ ∀ x, x ∈ locations'
        ↔ x ∈ locations
          ∨ ∃ p, p ∈ paths ∧ is_dir fs (Pathlib.joinpath p parts) = true
              ∧ x = Pathlib.str (Pathlib.joinpath p parts).
Proof.
  induction paths as [|p paths IH]; intros locations st Hall.
  - exists locations. split; [done|]. intros x. split; [by left|].
    intros [?|(p & ?%elem_of_nil & _)]; done.
  - cbn [search_loop]. unfold bind.
    assert (Hrest : ∀ q, q ∈ paths →
              is_dir fs (Pathlib.joinpath q parts) = true ∨ archive_test fs q = false)
      by (intros q Hq; apply Hall; by apply list_elem_of_further).
    destruct (search_step_cases parts locations p st)
      as [[Hd ->]|[(Hd & Ht & ->)|[(Hd & Ht & _)|[(Hd & Ht & _)|(Hd & Ht & _)]]]].
    3-5: destruct (Hall p (list_elem_of_here _ _)) as [H|H]; congruence.
    + destruct (IH (locations ∪ {[Pathlib.str (Pathlib.joinpath p parts)]}) st Hrest)
        as (l' & -> & Hl'). exists l'. split; [done|]. intros x. rewrite Hl'.
      rewrite elem_of_union, elem_of_singleton. split.
      * intros [[?| ->]|(q & Hq & Hqd & ->)]; [by left|right|right].
        -- exists p. split; [apply list_elem_of_here|done].
        -- exists q. split; [by apply list_elem_of_further|done].
      * intros [?|(q & [->|Hq]%elem_of_cons & Hqd & ->)]; [by left; left|by left; right|].
        right. by exists q.
    + destruct (IH locations st Hrest) as (l' & -> & Hl'). exists l'. split; [done|].
      intros x. rewrite Hl'. split.
      * intros [?|(q & Hq & Hqd & ->)]; [by left|]. right.
        exists q. split; [by apply list_elem_of_further|done].
      * intros [?|(q & [->|Hq]%elem_of_cons & Hqd & ->)]; [by left|congruence|].
        right. by exists q.
Qed.

End Steps.

Section Again.
Variable fs : filesystem.

(** A loop that ran to its end, run again from any state whose cache
    agrees with the final one on the candidates, gives the same
    locations and leaves the finder as it is. *)
Lemma search_loop_again parts paths : ∀ locations st locations' st' stx,
  NoDup paths →
  search_loop fs parts locations paths st = (Ok locations', st') →
  (∀ a, a ∈ paths → cache_of stx !! a = cache_of st' !! a) →
  ∃ stx', search_loop fs parts locations paths stx = (Ok locations', stx')
    ∧ self stx' = self stx.
Proof.
  induction paths as [|p paths IH]; intros locations st locations' st' stx Hnd.
  - simpl. intros [= <- <-] _. by exists stx.
  - apply NoDup_cons in Hnd as [Hnp Hnd]. cbn [search_loop]. unfold bind.
    destruct (search_step fs parts locations p st) as [[l1|e] st1] eqn:Hs; [|done].
    intros Hrest Hcache.
    assert (Hp : cache_of stx !! p = cache_of st1 !! p).
    { rewrite (Hcache p (list_elem_of_here _ _)).
      pose proof (search_loop_frame fs parts paths l1 st1 p Hnp) as Hf.
      by rewrite Hrest in Hf. }
    assert (Hstep : ∃ stx1, search_step fs parts locations p stx = (Ok l1, stx1)
                      ∧ self stx1 = self stx).
    { destruct (search_step_cases fs parts locations p st)
        as [[Hd Heq]|[(Hd & Ht & Heq)|[(Hd & Ht & files & Hc & Heq)
           |[(Hd & Ht & Hc & names & st2 & Hz & Heq & _ & _ & Hc2)
            |(Hd & Ht & Hc & e1 & Hz & Heq)]]]];
        rewrite Heq in Hs.
      - injection Hs as <- <-.
        destruct (search_step_cases fs parts locations p stx)
          as [[_ ->]|[(Hd' & _)|[(Hd' & _)|[(Hd' & _)|(Hd' & _)]]]];
          [by exists stx|congruence..].
      - injection Hs as <- <-.
        destruct (search_step_cases fs parts locations p stx)
          as [[Hd' _]|[(_ & _ & ->)|[(_ & Ht' & _)|[(_ & Ht' & _)|(_ & Ht' & _)]]]];
          [congruence|by exists stx|congruence..].
      - injection Hs as <- <-. rewrite Hc in Hp.
        destruct (search_step_cases fs parts locations p stx)
          as [[Hd' _]|[(_ & Ht' & _)|[(_ & _ & files' & Hc' & ->)
             |[(_ & _ & Hc' & _)|(_ & _ & Hc' & _)]]]]; [congruence..| |congruence|congruence].
        exists stx. rewrite Hc' in Hp. by injection Hp as ->.
      - injection Hs as <- <-. rewrite Hc2, lookup_insert_eq in Hp.
        destruct (search_step_cases fs parts locations p stx)
          as [[Hd' _]|[(_ & Ht' & _)|[(_ & _ & files' & Hc' & ->)
             |[(_ & _ & Hc' & _)|(_ & _ & Hc' & _)]]]]; [congruence..| |congruence|congruence].
        exists stx. rewrite Hc' in Hp. by injection Hp as ->.
      - destruct (is_FileNotFoundError e1) eqn:Hfnf; [|done]. injection Hs as <- <-.
        change (cache_of (opened p st)) with (cache_of st) in Hp. rewrite Hc in Hp.
        destruct (search_step_cases fs parts locations p stx)
          as [[Hd' _]|[(_ & Ht' & _)|[(_ & _ & files' & Hc' & _)
             |[(_ & _ & _ & names & st2 & Hz' & _)|(_ & _ & _ & e2 & Hz' & ->)]]]];
          [congruence..|].
        rewrite Hz in Hz'. injection Hz' as <-. rewrite Hfnf. by exists (opened p stx). }
    destruct Hstep as (stx1 & -> & Hself).
    destruct (IH l1 st1 locations' st' stx1 Hnd Hrest) as (stx' & -> & Hself').
    + intros a Ha. unfold cache_of. rewrite Hself. apply Hcache. by apply list_elem_of_further.
    + exists stx'. split; [done|]. by rewrite Hself'.
Qed.

End Again.

Lemma find_spec_state fs env fullname st :
  (find_spec fs env fullname st).2 = st
  ∨ (find_spec fs env fullname st).2 = (search_locations fs env fullname st).2.
Proof.
  unfold find_spec, bind, gets, ret.
  destruct (decide (fullname ∉ packages (self st))); [by left|]. right.
  destruct (search_locations fs env fullname st) as [[locations|e] st']; [|done].
  by destruct (decide (locations = ∅)).
Qed.

(** X6. One resolution opens every archive at most once, and opens
    nothing but candidate roots that pass the archive test and are not
    in the cache: the log of opened archives grows by a duplicate-free
    list of such candidates, however often a root occurs among the
    candidate locations. *)
Theorem search_locations_opens_once fs env fullname st :
  ∃ tr,
    zip_opened (search_locations fs env fullname st).2 = (zip_opened st ++ tr)%list
    ∧ NoDup tr
    ∧ ∀ a, a ∈ tr →
        a ∈ candidate_locations fs env ∧ cache_of st !! a = None
        ∧ archive_test fs a = true.
Proof.
  unfold search_locations.
  destruct (search_loop_trace fs (Pathlib.of_segments (Str.split "."%char fullname))
              (dict_fromkeys (candidate_locations fs env)) ∅ st (NoDup_dict_fromkeys _))
    as (_ & _ & tr & Ho & Hnd & Hin & _).
  exists tr. split; [done|]. split; [done|]. intros a Ha.
  destruct (Hin a Ha) as (Hc & Hn & Ht & _). apply (proj1 (elem_of_dict_fromkeys _ _)) in Hc.
  split; [done|]. by split.
Qed.

Lemma search_locations_opens_once_witness :
  ∃ tr,
    zip_opened (search_locations (zip_fs ["yt_dlp_plugins/extractor/bar.py"]) home_env
                  "yt_dlp_plugins.extractor" fresh_finder).2 = tr
    ∧ NoDup tr.
Proof.
  destruct (search_locations_opens_once (zip_fs ["yt_dlp_plugins/extractor/bar.py"]) home_env
              "yt_dlp_plugins.extractor" fresh_finder) as (tr & Ho & Hnd & _).
  exists tr. split; [exact Ho|exact Hnd].
Defined.

(** X7. Resolution never evicts: whatever [find_spec] answers, and
    also when it raises, the finder watches the same names afterwards
    and every archive listing that was cached is still cached,
    unchanged. *)
Theorem find_spec_keeps_cache fs env fullname st :
  packages (self (find_spec fs env fullname st).2) = packages (self st)
  ∧ ∀ a files, cache_of st !! a = Some files →
      cache_of (find_spec fs env fullname st).2 !! a = Some files.
Proof.
  destruct (find_spec_state fs env fullname st) as [-> | ->]; [done|].
  unfold search_locations.
  destruct (search_loop_trace fs (Pathlib.of_segments (Str.split "."%char fullname))
              (dict_fromkeys (candidate_locations fs env)) ∅ st (NoDup_dict_fromkeys _))
    as (Hp & Hc & _).
  done.
Qed.

Lemma find_spec_keeps_cache_witness :
  cache_of (find_spec (zip_fs ["extractor/bar.py"]) home_env "yt_dlp_plugins.extractor"
              cached_finder).2 !! myplugins_zip
  = Some [["yt_dlp_plugins"; "extractor"]].
Proof.
  apply (find_spec_keeps_cache (zip_fs ["extractor/bar.py"]) home_env
           "yt_dlp_plugins.extractor" cached_finder).
  reflexivity.
Defined.



(** X9. What a resolution that returns has found: the location of every
    candidate root under which the package directory exists is in the
    set, and every location in the set is that of a candidate root
    which has the package directory or passes the archive test. *)
Theorem search_locations_sound fs env fullname st locations st' :
  search_locations fs env fullname st = (Ok locations, st') →
  (∀ p, p ∈ candidate_locations fs env →
     is_dir fs (Pathlib.joinpath p (Pathlib.of_segments (Str.split "."%char fullname))) = true →
     Pathlib.str (Pathlib.joinpath p (Pathlib.of_segments (Str.split "."%char fullname)))
       ∈ locations)
  ∧ (∀ x, x ∈ locations →
       ∃ p, p ∈ candidate_locations fs env
         ∧ x = Pathlib.str
                 (Pathlib.joinpath p (Pathlib.of_segments (Str.split "."%char fullname)))
         ∧ (is_dir fs
              (Pathlib.joinpath p (Pathlib.of_segments (Str.split "."%char fullname))) = true
            ∨ archive_test fs p = true)).
Proof.
  unfold search_locations. intros (_ & Hdirs & Hfrom)%search_loop_locations. split.
  - intros p Hp. apply Hdirs. by apply elem_of_dict_fromkeys.
  - intros x [Hx|(p & Hp & H)]%Hfrom; [by apply not_elem_of_empty in Hx|].
    exists p. split; [by apply (proj1 (elem_of_dict_fromkeys _ _)) in Hp|done].
Qed.

Lemma search_locations_sound_witness :
  "/home/u/.config/yt-dlp/plugins/myplugins/yt_dlp_plugins/extractor"
    ∈ resolved (search_locations dir_fs home_env "yt_dlp_plugins.extractor" fresh_finder).
Proof.
  pose (r := search_locations dir_fs home_env "yt_dlp_plugins.extractor" fresh_finder).
  assert (Hr : r = (Ok (resolved r), r.2)) by (vm_compute; reflexivity).
  apply (search_locations_sound dir_fs home_env "yt_dlp_plugins.extractor" fresh_finder
           (resolved r) r.2 Hr) with (p := myplugins).
  - apply (bool_decide_unpack _). vm_compute. exact I.
  - reflexivity.
Defined.



(** X11. Resolution is repeatable: after a resolution that returned, a
    second one on the same file system returns the same set and leaves
    the finder, cache included, as the first one left it. *)
Theorem search_locations_again fs env fullname st locations st1 :
  search_locations fs env fullname st = (Ok locations, st1) →
  ∃ st2,
    search_locations fs env fullname st1 = (Ok locations, st2)
    ∧ self st2 = self st1.
Proof.
  unfold search_locations. intros Hrun.
  by apply (search_loop_again fs _ _ _ st locations st1 st1 (NoDup_dict_fromkeys _) Hrun).
Qed.

Lemma search_locations_again_witness :
  ∃ st2,
    search_locations (zip_fs ["yt_dlp_plugins/extractor/bar.py"]) home_env
      "yt_dlp_plugins.extractor"
      (search_locations (zip_fs ["yt_dlp_plugins/extractor/bar.py"]) home_env
         "yt_dlp_plugins.extractor" fresh_finder).2
    = (Ok {["/home/u/.config/yt-dlp/plugins/myplugins.zip/yt_dlp_plugins/extractor"]}, st2).
Proof.
  assert (Hrun : search_locations (zip_fs ["yt_dlp_plugins/extractor/bar.py"]) home_env
                   "yt_dlp_plugins.extractor" fresh_finder
                 = (Ok {["/home/u/.config/yt-dlp/plugins/myplugins.zip/yt_dlp_plugins/extractor"]},
                    (search_locations (zip_fs ["yt_dlp_plugins/extractor/bar.py"]) home_env
                       "yt_dlp_plugins.extractor" fresh_finder).2))
    by (vm_compute; reflexivity).
  destruct (search_locations_again _ _ _ _ _ _ Hrun) as (st2 & H2 & _).
  exists st2. exact H2.
Defined.

(** ** The pattern of private submodules *)

Lemma matches_class_inv P s :
  matches (Class P) s → ∃ c, s = String c "" ∧ P c = true.
Proof. inversion 1; subst. by eexists. Qed.

Lemma matches_word_plus w :
  matches (Plus (Class is_word_char)) w → w ≠ "" ∧ all_word w = true.
Proof.
  remember (Plus (Class is_word_char)) as r eqn:Hr. intros Hm.
  induction Hm as [| | | |r s Hs _|r s1 s2 Hs1 _ Hs2 IH]; try discriminate Hr.
  - injection Hr as ->. apply matches_class_inv in Hs as (c & -> & Hc).
    split; [done|]. simpl. by rewrite Hc.
  - injection Hr as ->. apply matches_class_inv in Hs1 as (c & -> & Hc).
    destruct (IH eq_refl) as [_ Hw]. rewrite append_cons. split; [done|].
    simpl. by rewrite Hc.
Qed.

Lemma word_plus_matches w :
  w ≠ "" → all_word w = true → matches (Plus (Class is_word_char)) w.
Proof.
  induction w as [|c w IH]; [done|]. intros _. simpl.
  intros [Hc Hw]%andb_true_iff. destruct w as [|c' w].
  - apply matches_plus_one. by constructor.
  - change (String c (String c' w)) with (String c "" ++ String c' w).
    apply matches_plus_cons; [by constructor|]. by apply IH.
Qed.

Lemma word_char_not_dot c : is_word_char c = true → Ascii.eqb c "."%char = false.
Proof.
  intros Hc. destruct (Ascii.eqb_spec c "."%char) as [->|]; [|done].
  vm_compute in Hc. discriminate Hc.
Qed.

(** A word in front of a dot is the first segment. *)
Lemma split_word w t :
  all_word w = true →
  Str.split "."%char (w ++ String "."%char t) = w :: Str.split "."%char t.
Proof.
  induction w as [|c w IH]; intros Hw.
  - change ("" ++ String "."%char t) with (String "."%char t). reflexivity.
  - simpl in Hw. apply andb_true_iff in Hw as [Hc Hw].
    rewrite append_cons. cbn [Str.split].
    rewrite (word_char_not_dot c Hc), (IH Hw). reflexivity.
Qed.

Lemma split_underscore t :
  ∃ seg rest, Str.split "."%char (String "_"%char t) = seg :: rest
    ∧ Str.startswith seg "_" = true.
Proof.
  cbn [Str.split]. change (Ascii.eqb "_"%char "."%char) with false. cbv iota.
  destruct (Str.split "."%char t) as [|w ws].
  - by eexists _, _.
  - eexists _, _. split; [done|]. unfold Str.startswith. simpl. by destruct w.
Qed.

Lemma join_head sep x l : ∃ tail, Str.join sep (x :: l) = x ++ tail.
Proof.
  destruct l as [|y l].
  - exists "". simpl. by rewrite append_nil_r.
  - by eexists.
Qed.

Lemma match_private_sound segments :
  match_private segments = true → re_match private_pattern (Str.join "." segments).
Proof.
  induction segments as [|seg rest IH]; [done|]. simpl match_private.
  intros [Hu|[[Hne Hw]%andb_true_iff Hrest]%andb_true_iff]%orb_true_iff.
  - apply startswith_spec in Hu as [x ->].
    destruct (join_head "." ("_" ++ x) rest) as [tail ->].
    exists "_", (x ++ tail). split; [by rewrite append_assoc|].
    change "_" with ("" ++ "_"). apply matches_cat; [constructor|by constructor].
  - destruct (IH Hrest) as (pre & tail & Hj & Hm).
    destruct rest as [|seg' rest]; [done|]. rewrite join_cons, Hj.
    unfold private_pattern in Hm. inversion Hm as [|r1 r2 s1 s2 Hs1 Hs2| | | |]; subst.
    exists ((seg ++ "." ++ s1) ++ s2), tail. split; [by rewrite !append_assoc|].
    apply matches_cat; [|done].
    replace (seg ++ "." ++ s1) with ((seg ++ ".") ++ s1) by (by rewrite append_assoc).
    apply matches_star_cons; [|done].
    apply matches_cat; [|by constructor].
    apply word_plus_matches; [|done]. apply negb_true_iff in Hne. by apply String.eqb_neq.
Qed.

Lemma match_private_star s1 :
  matches (Star (Cat (Plus (Class is_word_char)) (Class (Ascii.eqb "."%char)))) s1 →
  ∀ t, match_private (Str.split "."%char (s1 ++ String "_"%char t)) = true.
Proof.
  remember (Star (Cat (Plus (Class is_word_char)) (Class (Ascii.eqb "."%char)))) as r eqn:Hr.
  intros Hm. induction Hm as [| |r| r u s2 Hu _ Hs2 IH| |]; try discriminate Hr.
  - intros t. change ("" ++ String "_"%char t) with (String "_"%char t).
    destruct (split_underscore t) as (seg & rest & -> & Hseg). simpl. by rewrite Hseg.
  - injection Hr as ->. intros t.
    inversion Hu as [|r1 r2 w d Hw Hd| | | |]; subst.
    apply matches_class_inv in Hd as (c & -> & Hc). apply Ascii.eqb_eq in Hc as <-.
    apply matches_word_plus in Hw as [Hne Hw].
    replace (((w ++ String "."%char "") ++ s2) ++ String "_"%char t)
      with (w ++ String "."%char (s2 ++ String "_"%char t))
      by (by rewrite !append_assoc).
    rewrite (split_word w _ Hw). simpl. rewrite (IH eq_refl t), Hw.
    apply String.eqb_neq in Hne. rewrite Hne. simpl. apply orb_true_r.
Qed.

Lemma re_match_private_spec module_name :
  re_match_private module_name = true ↔ re_match private_pattern module_name.
Proof.
  unfold re_match_private. split.
  - intros Hm. rewrite <- (join_split module_name). by apply match_private_sound.
  - intros (pre & tail & -> & Hm). unfold private_pattern in Hm.
    inversion Hm as [|r1 r2 s1 s2 Hs1 Hs2| | | |]; subst.
    apply matches_class_inv in Hs2 as (c & -> & Hc). apply Ascii.eqb_eq in Hc as <-.
    rewrite append_assoc. by apply match_private_star.
Qed.



(** ** The registry: what [load_module] and [load_plugins] do to the store *)

Lemma earliest_None k offers :
  earliest k offers = None ↔ ∀ mc, mc ∈ offers → mc !! k = None.
Proof.
  induction offers as [|mc offers IH]; simpl.
  - split; [by intros _ mc ?%elem_of_nil|done].
  - destruct (mc !! k) as [v|] eqn:Hk.
    + split; [done|]. intros H. specialize (H mc (list_elem_of_here _ _)). congruence.
    + rewrite IH. split.
      * intros H mc' [->|Hin]%elem_of_cons; [done|by apply H].
      * intros H mc' Hin. apply H. by apply list_elem_of_further.
Qed.

Lemma earliest_Some k offers v :
  earliest k offers = Some v → ∃ mc, mc ∈ offers ∧ mc !! k = Some v.
Proof.
  induction offers as [|mc offers IH]; simpl; [done|].
  destruct (mc !! k) as [w|] eqn:Hk.
  - intros [= <-]. exists mc. split; [apply list_elem_of_here|done].
  - intros (mc' & Hin & Hv)%IH. exists mc'. split; [by apply list_elem_of_further|done].
Qed.

Lemma earliest_agreeing k offers mc v :
  agreeing offers → mc ∈ offers → mc !! k = Some v → earliest k offers = Some v.
Proof.
  intros Hag Hin Hv. destruct (earliest k offers) as [w|] eqn:He.
  - apply earliest_Some in He as (mc' & Hin' & Hw). f_equal. by apply (Hag mc' mc k w v).
  - rewrite earliest_None in He. rewrite (He mc Hin) in Hv. done.
Qed.

Lemma earliest_perm k offers offers' :
  offers ≡ₚ offers' → agreeing offers → earliest k offers = earliest k offers'.
Proof.
  intros Hp Hag.
  assert (Hag' : agreeing offers').
  { intros mc1 mc2 k' v w H1 H2. apply Hag; by rewrite Hp. }
  destruct (earliest k offers) as [v|] eqn:He.
  - apply earliest_Some in He as (mc & Hin & Hv). symmetry.
    apply (earliest_agreeing k offers' mc v); [done| |done]. by rewrite <- Hp.
  - symmetry. apply earliest_None. intros mc Hin. rewrite earliest_None in He.
    apply He. by rewrite Hp.
Qed.

Lemma dom_merged (cl ns mc : gmap string pyobj) :
  dom (merged cl ns mc) = dom cl ∪ (dom mc ∖ dom ns).
Proof.
  apply set_eq. intros k.
  rewrite elem_of_union, elem_of_difference, !elem_of_dom, merged_lookup.
  destruct (cl !! k) as [v|]; [split; [by left|by eexists]|].
  destruct (ns !! k) as [w|].
  - split; [by intros [? [=]]|]. intros [[? [=]]|[_ H]]. destruct H. by eexists.
  - split; [intros H; right; split; [done|by intros [? [=]]]|]. by intros [[? [=]]|[H _]].
Qed.

Lemma merged_idempotent (cl ns mc : gmap string pyobj) :
  merged (merged cl ns mc) ns mc = merged cl ns mc.
Proof.
  apply map_eq. intros k. rewrite !merged_lookup.
  destruct (cl !! k); [done|]. destruct (ns !! k); [done|]. by destruct (mc !! k).
Qed.

Section LoadingMore.
Variable env : environ.
Variable imp : importer.
Variable suffix : string.

(** [load_plugins] is [load_plugins_from] on a store extended by the
    new dicts. *)
Lemma load_plugins_enters name namespace st :
  ∃ nsr st0,
    load_plugins env imp suffix name namespace st
    = load_plugins_from env imp suffix name (length (heap st)) nsr st0
    ∧ length (heap st) ≠ nsr
    ∧ length (heap st) < length (heap st0)
    ∧ sys_modules st0 = sys_modules st
    ∧ stderr st0 = stderr st
    ∧ take (length (heap st)) (heap st0) = heap st.
Proof.
  unfold load_plugins. unfold bind at 1, new_dict at 1.
  destruct namespace as [r|].
  - unfold bind at 1, bind at 1, deref at 1, gets at 1. simpl.
    destruct (decide (default ∅ ((heap st ++ [∅])%list !! r) = ∅)) as [He|Hne].
    + unfold new_dict. simpl. eexists _, _. split; [reflexivity|]. simpl.
      rewrite !length_app. simpl. split; [lia|]. split; [lia|]. split; [done|]. split; [done|].
      rewrite <- app_assoc. by rewrite take_app_length.
    + unfold ret. eexists _, _. split; [reflexivity|]. simpl.
      rewrite length_app. simpl. split; [|split; [lia|split; [done|split; [done|]]]].
      * intros <-. apply Hne. rewrite lookup_app_r by lia. by rewrite Nat.sub_diag.
      * by rewrite take_app_length.
  - unfold bind at 1, new_dict at 1. simpl. eexists _, _. split; [reflexivity|]. simpl.
    rewrite !length_app. simpl. split; [lia|]. split; [lia|]. split; [done|]. split; [done|].
    rewrite <- app_assoc. by rewrite take_app_length.
Qed.

Lemma scan_step_sys_modules classes namespace sm st :
  sys_modules (scan_step imp suffix classes namespace sm st).2
  = if registers imp sm then sys_modules st ∪ {[sm_name sm]} else sys_modules st.
Proof.
  unfold scan_step, registers, import_submodule.
  destruct (re_match_private (sm_name sm)); [done|]. simpl.
  unfold try_except, bind, lift, ret, set_sys_modules, modify, write_string, load_module,
    deref, gets, assign, modify.
  destruct (version_lt_3_10 imp && sm_zipimporter sm); simpl.
  - destruct (sm_load_module sm) as [m|e]; [done|]. by destruct (is_Exception e).
  - destruct (sm_module_from_spec sm) as [[]|e]; simpl.
    + destruct (sm_exec_module sm) as [m|e]; [done|]. by destruct (is_Exception e).
    + by destruct (is_Exception e).
Qed.

Lemma scan_step_others classes namespace sm st i :
  i ≠ classes →
  heap (scan_step imp suffix classes namespace sm st).2 !! i = heap st !! i.
Proof.
  intros Hi. destruct (scan_step_run imp suffix classes namespace sm st) as (st1 & Hs & Hh & _).
  rewrite Hs. simpl. rewrite Hh. destruct (offered imp suffix sm); [|done]. by rewrite list_lookup_insert_ne.
Qed.

(** The loop writes to [classes] only, however it ends. *)
Lemma scan_others classes namespace mods i : ∀ st,
  i ≠ classes →
  heap (scan imp suffix classes namespace mods st).2 !! i = heap st !! i.
Proof.
  induction mods as [|sm mods IH]; intros st Hi; [done|].
  cbn [scan]. unfold bind at 1.
  pose proof (scan_step_others classes namespace sm st i Hi) as Hs.
  destruct (scan_step imp suffix classes namespace sm st) as [[[]|e] st1]; simpl in *; [|done].
  by rewrite IH.
Qed.

Lemma scan_sys_modules classes namespace mods : ∀ st st',
  scan imp suffix classes namespace mods st = (Ok tt, st') →
  sys_modules st'
  = sys_modules st ∪ list_to_set (sm_name <$> filter (λ sm, registers imp sm = true) mods).
Proof.
  induction mods as [|sm mods IH]; intros st st'.
  - simpl. intros [= <-]. set_solver.
  - cbn [scan]. unfold bind at 1.
    pose proof (scan_step_sys_modules classes namespace sm st) as Hs.
    destruct (scan_step imp suffix classes namespace sm st) as [[[]|e] st1]; simpl in *; [|done].
    intros ->%IH. rewrite Hs, filter_cons.
    destruct (registers imp sm) eqn:Hr.
    + rewrite decide_True by done. set_solver.
    + rewrite decide_False by done. done.
Qed.

Lemma compat_sys_modules name classes namespace st i :
  sys_modules (compat env imp suffix name classes namespace st).2 = sys_modules st ∪ {[name]}
  ∧ (i ≠ classes →
     heap (compat env imp suffix name classes namespace st).2 !! i = heap st !! i).
Proof.
  unfold compat, suppress, bind, lift, set_sys_modules, modify, load_module, deref, gets,
    assign, modify. simpl.
  destruct (exec_file_location imp name _) as [plugins|e]; simpl.
  - split; [done|]. intros Hi. by rewrite list_lookup_insert_ne.
  - by destruct (is_FileNotFoundError e).
Qed.

(** However [load_plugins_from] ends, it writes to [classes], and, when
    it returns, to [namespace]; when it returns, the names assigned in
    [sys.modules] are those of the registering submodules and the name
    of the category. *)
Lemma load_plugins_from_effects name classes namespace st r st' i :
  load_plugins_from env imp suffix name classes namespace st = (r, st') →
  i ≠ classes →
  match r with
  | Ok _ =>
      (i ≠ namespace → heap st' !! i = heap st !! i)
      ∧ sys_modules st'
        = sys_modules st
          ∪ list_to_set (sm_name <$> filter (λ sm, registers imp sm = true) (listed imp name))
          ∪ {[name]}
  | Raise _ => heap st' !! i = heap st !! i
  end.
Proof.
  intros Hrun Hi. unfold load_plugins_from in Hrun. unfold bind at 1 in Hrun.
  rewrite iter_modules_run in Hrun.
  assert (Hmods : ∀ st0,
    (let! _ := scan imp suffix classes namespace (listed imp name) in
     let! _ := compat env imp suffix name classes namespace in
     let! cl := deref classes in
     let! ns := deref namespace in
     let! _ := assign namespace (cl ∪ ns) in ret classes) st = (r, st0) →
    st0 = st' →
    match r with
    | Ok _ =>
        (i ≠ namespace → heap st' !! i = heap st !! i)
        ∧ sys_modules st'
          = sys_modules st
            ∪ list_to_set (sm_name <$> filter (λ sm, registers imp sm = true)
                                         (listed imp name))
            ∪ {[name]}
    | Raise _ => heap st' !! i = heap st !! i
    end).
  { intros st0. unfold bind at 1.
    pose proof (scan_others classes namespace (listed imp name) i st Hi) as Hh1.
    destruct (scan imp suffix classes namespace (listed imp name) st) as [[[]|e1] st1] eqn:Hscan;
      simpl in Hh1.
    2: { by intros [= <- <-] <-. }
    apply scan_sys_modules in Hscan. unfold bind at 1.
    destruct (compat_sys_modules name classes namespace st1 i) as [Hs2 Hh2].
    destruct (compat env imp suffix name classes namespace st1) as [[[]|e2] st2];
      simpl in Hs2, Hh2.
    2: { intros [= <- <-] <-. by rewrite Hh2. }
    unfold bind, deref, gets, assign, modify, ret. intros [= <- <-] <-. simpl. split.
    - intros Hn. rewrite list_lookup_insert_ne by done. by rewrite Hh2.
    - by rewrite Hs2, Hscan. }
  destruct (import_module imp _) as [pkg_path|e0];
    [|destruct (is_ModuleNotFoundError e0)].
  - by apply (Hmods st').
  - by apply (Hmods st').
  - by injection Hrun as <- <-.
Qed.

End LoadingMore.

Lemma store_after_caller st namespace cl i :
  i < length (heap st) →
  store_after st namespace cl !! i
  = match namespace with
    | Some r => if decide (i = r ∧ dict_at st r ≠ ∅) then Some (cl ∪ dict_at st r)
                else heap st !! i
    | None => heap st !! i
    end.
Proof.
  intros Hi. unfold store_after.
  destruct namespace as [r|]; [|by rewrite lookup_app_l].
  destruct (decide (dict_at st r = ∅)) as [He|Hne].
  - rewrite lookup_app_l by done. rewrite decide_False; [done|]. by intros [_ ?].
  - rewrite lookup_app_l by (by rewrite length_insert).
    destruct (decide (i = r)) as [->|Hir].
    + rewrite decide_True by done. by rewrite list_lookup_insert_eq.
    + rewrite decide_False by (by intros [? _]). by rewrite list_lookup_insert_ne.
Qed.

Lemma load_plugins_sys_modules env imp suffix name namespace st c st' :
  load_plugins env imp suffix name namespace st = (Ok c, st') →
  sys_modules st'
  = sys_modules st
    ∪ list_to_set (sm_name <$> filter (λ sm, registers imp sm = true) (listed imp name))
    ∪ {[name]}.
Proof.
  intros Hrun.
  destruct (load_plugins_enters env imp suffix name namespace st)
    as (nsr & st0 & Heq & Hne & _ & Hsys & _ & _).
  rewrite Heq in Hrun.
  apply (load_plugins_from_effects env imp suffix name _ _ _ _ _ (S (length (heap st))))
    in Hrun as [_ ->]; [|lia].
  by rewrite Hsys.
Qed.

(** X13. Nothing is lost but to the namespace: when [load_plugins]
    returns, a name is in the returned registry exactly when some module
    of the scan offers it and the caller's namespace does not have it,
    and every binding of the registry is the offer of some module of the
    scan. *)
Theorem registry_complete env imp suffix name namespace st c st' k :
  load_plugins env imp suffix name namespace st = (Ok c, st') →
  (k ∈ dom (dict_at st' c)
   ↔ (k ∉ dom (caller_namespace st namespace))
     ∧ (∃ mc, mc ∈ scan_order env imp suffix name ∧ k ∈ dom mc))
  ∧ (∀ v, dict_at st' c !! k = Some v →
       ∃ mc, mc ∈ scan_order env imp suffix name ∧ mc !! k = Some v).
Proof.
  intros Hrun. apply load_plugins_inv in Hrun as (-> & _ & Hheap).
  assert (Hk : dict_at st' (length (heap st)) !! k
               = match caller_namespace st namespace !! k with
                 | Some _ => None
                 | None => earliest k (scan_order env imp suffix name)
                 end).
  { unfold dict_at at 1. by rewrite Hheap, store_after_classes, surviving_lookup. }
  split.
  - rewrite elem_of_dom, Hk, not_elem_of_dom.
    destruct (caller_namespace st namespace !! k) as [w|].
    + split; [by intros [? [=]]|by intros [[=] _]].
    + split.
      * intros [v (mc & Hin & Hv)%earliest_Some]. split; [done|].
        exists mc. split; [done|]. apply elem_of_dom. by eexists.
      * intros [_ (mc & Hin & [v Hv]%elem_of_dom)].
        destruct (earliest k (scan_order env imp suffix name)) as [w|] eqn:He; [by eexists|].
        rewrite earliest_None in He. rewrite (He mc Hin) in Hv. done.
  - intros v. rewrite Hk. destruct (caller_namespace st namespace !! k); [done|].
    apply earliest_Some.
Qed.

Lemma registry_complete_witness :
  "LegacyIE"
    ∈ dom (dict_at (load_plugins home_env two_roots "IE" "extractor" (Some 0)
                      builtin_store).2 1).
Proof.
  assert (Hrun : load_plugins home_env two_roots "IE" "extractor" (Some 0) builtin_store
                 = (Ok 1, (load_plugins home_env two_roots "IE" "extractor" (Some 0)
                             builtin_store).2))
    by (vm_compute; reflexivity).
  apply (registry_complete _ _ _ _ _ _ _ _ "LegacyIE" Hrun). split.
  - apply (bool_decide_unpack _). vm_compute. exact I.
  - exists (module_classes "IE" legacy_module "extractor"). split.
    + apply (bool_decide_unpack _). vm_compute. exact I.
    + apply (bool_decide_unpack _). vm_compute. exact I.
Defined.



(** X15. When [load_plugins] raises, no dict of the caller has
    changed: every dict that was in the store before the call, the
    namespace among them, is as it was (the names registered so far are
    in the new dict only, which is lost with the exception). *)
Theorem raise_leaves_store env imp suffix name namespace st e st' i :
  load_plugins env imp suffix name namespace st = (Raise e, st') →
  i < length (heap st) →
  heap st' !! i = heap st !! i.
Proof.
  intros Hrun Hi.
  destruct (load_plugins_enters env imp suffix name namespace st)
    as (nsr & st0 & Heq & _ & _ & _ & _ & Htake).
  rewrite Heq in Hrun.
  apply (load_plugins_from_effects env imp suffix name _ _ _ _ _ i) in Hrun; [|lia].
  rewrite Hrun, <- Htake at 1. by rewrite lookup_take_lt.
Qed.

Lemma raise_leaves_store_witness :
  heap (load_plugins home_env failing_legacy "IE" "extractor" (Some 0) builtin_store).2 !! 0
  = Some {[ "YoutubeIE" := PyClass YoutubeIE ]}.
Proof.
  assert (Hrun : load_plugins home_env failing_legacy "IE" "extractor" (Some 0) builtin_store
                 = (Raise (Exception_ "ValueError"),
                    (load_plugins home_env failing_legacy "IE" "extractor" (Some 0)
                       builtin_store).2))
    by (vm_compute; reflexivity).
  apply (raise_leaves_store _ _ _ _ _ _ _ _ 0 Hrun). simpl. lia.
Defined.

(** X16. [namespace or {}]: when the caller passes [None] or an empty
    dict, a load that returns changes no dict of the caller, so an empty
    dict that was passed stays empty, and the returned registry binds
    every offered name to its earliest offer. *)
Theorem empty_namespace_not_updated env imp suffix name namespace st c st' :
  caller_namespace st namespace = ∅ →
  load_plugins env imp suffix name namespace st = (Ok c, st') →
  (∀ i, i < length (heap st) → heap st' !! i = heap st !! i)
  ∧ ∀ k, dict_at st' c !! k = earliest k (scan_order env imp suffix name).
Proof.
  intros He Hrun. apply load_plugins_inv in Hrun as (-> & _ & Hheap). split.
  - intros i Hi. rewrite Hheap, store_after_caller by done.
    destruct namespace as [r|]; [|done].
    rewrite decide_False; [done|]. intros [_ Hne]. by apply Hne.
  - intros k. unfold dict_at at 1.
    rewrite Hheap, store_after_classes, surviving_lookup, He. by rewrite lookup_empty.
Qed.

Lemma empty_namespace_not_updated_witness :
  heap (load_plugins home_env two_roots "IE" "extractor" (Some 0) empty_store).2 !! 0
  = Some ∅
  ∧ dict_at (load_plugins home_env two_roots "IE" "extractor" (Some 0) empty_store).2 1
      !! "FooIE" = Some (PyClass FooIE).
Proof.
  assert (Hrun : load_plugins home_env two_roots "IE" "extractor" (Some 0) empty_store
                 = (Ok 1, (load_plugins home_env two_roots "IE" "extractor" (Some 0)
                             empty_store).2))
    by (vm_compute; reflexivity).
  destruct (empty_namespace_not_updated home_env two_roots "IE" "extractor" (Some 0)
              empty_store _ _ eq_refl Hrun) as [Hh Hk].
  split.
  - apply Hh. simpl. lia.
  - rewrite Hk. vm_compute. reflexivity.
Defined.

(** X17. What a load that returns leaves in [sys.modules]: beside the
    entries that were there, the name of every listed submodule that is
    not skipped, is imported through [find_spec] and has a module made
    from its spec, whether its execution succeeded or raised, and the
    bare name of the category, assigned for the legacy package whether
    or not it exists; nothing else. *)
Theorem sys_modules_after_load env imp suffix name namespace st c st' x :
  load_plugins env imp suffix name namespace st = (Ok c, st') →
  x ∈ sys_modules st'
  ↔ x ∈ sys_modules st ∨ x = name
    ∨ ∃ sm, sm ∈ listed imp name ∧ registers imp sm = true ∧ x = sm_name sm.
Proof.
  intros Hrun. rewrite (load_plugins_sys_modules _ _ _ _ _ _ _ _ Hrun).
  rewrite !elem_of_union, elem_of_singleton, elem_of_list_to_set, list_elem_of_fmap.
  split.
  - intros [[?|(sm & -> & [Hr Hin]%list_elem_of_filter)]|?]; [by left| |by right; left].
    right. right. by exists sm.
  - intros [?|[?|(sm & Hin & Hr & ->)]]; [by left; left|by right|]. left. right.
    exists sm. split; [done|]. by apply list_elem_of_filter.
Qed.

Lemma sys_modules_after_load_witness :
  "yt_dlp_plugins.extractor.broken"
    ∈ sys_modules (load_plugins home_env two_roots "IE" "extractor" (Some 0) builtin_store).2
  ∧ "extractor"
    ∈ sys_modules (load_plugins home_env two_roots "IE" "extractor" (Some 0) builtin_store).2.
Proof.
  assert (Hrun : load_plugins home_env two_roots "IE" "extractor" (Some 0) builtin_store
                 = (Ok 1, (load_plugins home_env two_roots "IE" "extractor" (Some 0)
                             builtin_store).2))
    by (vm_compute; reflexivity).
  assert (Hl : listed two_roots "extractor"
               = [ sourced "yt_dlp_plugins.extractor.foo" (Ok foo_module);
                   sourced "yt_dlp_plugins.extractor.broken" (Raise (Exception_ "SyntaxError"));
                   sourced "yt_dlp_plugins.extractor.foo" (Ok later_foo_module) ])
    by (vm_compute; reflexivity).
  split.
  - apply (sys_modules_after_load _ _ _ _ _ _ _ _ _ Hrun). right. right.
    exists (sourced "yt_dlp_plugins.extractor.broken" (Raise (Exception_ "SyntaxError"))).
    split; [|split].
    + rewrite Hl. apply list_elem_of_further, list_elem_of_here.
    + vm_compute. reflexivity.
    + reflexivity.
  - apply (sys_modules_after_load _ _ _ _ _ _ _ _ _ Hrun). right. by left.
Defined.

(** X18. No plugins installed: when the package of the category cannot
    be imported ([ModuleNotFoundError]) and the legacy file is missing
    ([FileNotFoundError]), [load_plugins] returns a new, empty registry,
    prints nothing, leaves every dict of the caller as it was, and
    assigns in [sys.modules] the bare name of the category and nothing
    else. *)
Theorem no_plugins_installed env imp suffix name namespace st :
  import_module imp (PACKAGE_NAME ++ "." ++ name) = Raise ModuleNotFoundError →
  compat_outcome env imp name = Raise FileNotFoundError →
  ∃ st',
    load_plugins env imp suffix name namespace st = (Ok (length (heap st)), st')
    ∧ dict_at st' (length (heap st)) = ∅
    ∧ stderr st' = stderr st
    ∧ sys_modules st' = sys_modules st ∪ {[name]}
    ∧ ∀ i, i < length (heap st) → heap st' !! i = heap st !! i.
Proof.
  intros Himp Hcompat.
  assert (Hlisted : listed imp name = []) by (unfold listed; by rewrite Himp).
  assert (Horder : scan_order env imp suffix name = []).
  { unfold scan_order, compat_offered. by rewrite Hlisted, Hcompat. }
  destruct (load_plugins env imp suffix name namespace st) as [[c|e] st'] eqn:Hrun.
  - pose proof Hrun as Hrun'.
    apply load_plugins_inv in Hrun as (-> & Herr & Hheap).
    exists st'. split; [done|].
    assert (Hs : surviving env imp suffix name (caller_namespace st namespace) = ∅).
    { apply map_eq. intros k. rewrite surviving_lookup, Horder, lookup_empty. simpl.
      by destruct (caller_namespace st namespace !! k). }
    rewrite Hs in Hheap. split; [|split; [|split]].
    + unfold dict_at. by rewrite Hheap, store_after_classes.
    + rewrite Herr, Hlisted. apply app_nil_r.
    + rewrite (load_plugins_sys_modules _ _ _ _ _ _ _ _ Hrun'), Hlisted. simpl.
      set_solver.
    + intros i Hi. rewrite Hheap, store_after_caller by done.
      destruct namespace as [r|]; [|done].
      destruct (decide (i = r ∧ dict_at st r ≠ ∅)) as [[-> Hne]|]; [|done].
      rewrite (left_id ∅ (∪)). unfold dict_at.
      destruct (lookup_lt_is_Some_2 (heap st) r Hi) as [d Hd]. by rewrite Hd.
  - apply load_plugins_inv in Hrun as [[H He]|[(sm & Hin & _)|[H He]]].
    + rewrite Himp in H. by injection H as <-.
    + rewrite Hlisted in Hin. by apply elem_of_nil in Hin.
    + rewrite Hcompat in H. by injection H as <-.
Qed.

Lemma no_plugins_installed_witness :
  ∃ st',
    load_plugins home_env (machinery [] (Raise FileNotFoundError)) "PP" "postprocessor"
      (Some 0) builtin_store = (Ok 1, st')
    ∧ dict_at st' 1 = ∅
    ∧ stderr st' = [].
Proof.
  destruct (no_plugins_installed home_env (machinery [] (Raise FileNotFoundError)) "PP"
              "postprocessor" (Some 0) builtin_store)
    as (st' & Hrun & Hc & Herr & _).
  - vm_compute. reflexivity.
  - reflexivity.
  - exists st'. split; [exact Hrun|]. split; [exact Hc|exact Herr].
Defined.

(** X19. Loading a module again changes nothing: [load_module] run
    twice in a row on the same module ends in the state one run ends
    in. *)
Theorem load_module_twice suffix classes namespace module module_name st :
  classes ≠ namespace →
  classes < length (heap st) →
  (load_module suffix classes namespace module module_name
   >> load_module suffix classes namespace module module_name) st
  = load_module suffix classes namespace module module_name st.
Proof.
  intros Hne Hlt. unfold load_module, bind, deref, gets, assign, modify.
  cbn [heap sys_modules stderr].
  rewrite list_lookup_insert_eq, list_lookup_insert_ne by done.
  change (default ∅ (Some ?x)) with x.
  by rewrite merged_idempotent, list_insert_insert_eq.
Qed.

Lemma load_module_twice_witness :
  (load_module "IE" 1 0 foo_module "yt_dlp_plugins.extractor.foo"
   >> load_module "IE" 1 0 foo_module "yt_dlp_plugins.extractor.foo") two_dicts
  = load_module "IE" 1 0 foo_module "yt_dlp_plugins.extractor.foo" two_dicts.
Proof.
  apply (load_module_twice "IE" 1 0 foo_module "yt_dlp_plugins.extractor.foo" two_dicts).
  - discriminate.
  - simpl. lia.
Defined.

(** X20. The names of the registry after one [load_module]: those it
    had and those the module offers that the namespace does not have;
    the namespace is not touched, and a registry that shared no name
    with the namespace still shares none. *)
Theorem load_module_names suffix classes namespace module module_name st :
  classes ≠ namespace →
  classes < length (heap st) →
  dom (dict_at (load_module suffix classes namespace module module_name st).2 classes)
  = dom (dict_at st classes)
    ∪ (dom (module_classes suffix module module_name) ∖ dom (dict_at st namespace))
  ∧ dict_at (load_module suffix classes namespace module module_name st).2 namespace
    = dict_at st namespace
  ∧ (dom (dict_at st classes) ## dom (dict_at st namespace) →
     dom (dict_at (load_module suffix classes namespace module module_name st).2 classes)
     ## dom (dict_at (load_module suffix classes namespace module module_name st).2
               namespace)).
Proof.
  intros Hne Hlt.
  assert (Hh : heap (load_module suffix classes namespace module module_name st).2
               = <[classes := merged (dict_at st classes) (dict_at st namespace)
                                (module_classes suffix module module_name)]> (heap st))
    by reflexivity.
  assert (Hc : dict_at (load_module suffix classes namespace module module_name st).2 classes
               = merged (dict_at st classes) (dict_at st namespace)
                   (module_classes suffix module module_name)).
  { unfold dict_at at 1. rewrite Hh. by rewrite list_lookup_insert_eq. }
  assert (Hn : dict_at (load_module suffix classes namespace module module_name st).2 namespace
               = dict_at st namespace).
  { unfold dict_at at 1. rewrite Hh. by rewrite list_lookup_insert_ne. }
  rewrite Hc, Hn, dom_merged. split; [done|]. split; [done|]. set_solver.
Qed.

Lemma load_module_names_witness :
  dom (dict_at (load_module "IE" 1 0 foo_module "yt_dlp_plugins.extractor.foo" two_dicts).2 1)
  = dom (dict_at two_dicts 1)
    ∪ (dom (module_classes "IE" foo_module "yt_dlp_plugins.extractor.foo")
       ∖ dom (dict_at two_dicts 0)).
Proof.
  apply (load_module_names "IE" 1 0 foo_module "yt_dlp_plugins.extractor.foo" two_dicts).
  - discriminate.
  - simpl. lia.
Defined.
